(** * rehype-custom-toc: the table-of-contents generator of [src/index.ts]

    A shallow embedding of [generateToc] and of the plugin's [transformer],
    and the properties of the outline they build. *)

From Stdlib Require Import Ascii String.
From stdpp Require Import gmap strings list pretty.

#[local] Set Warnings "-clear-no-such-hyp".

Local Open Scope string_scope.
Local Open Scope list_scope.
Local Open Scope nat_scope.

(** ** The document tree (hast)

    [RootContent] of hast: elements carry a tag name, a property object and
    their children; text and comment nodes carry a value.  A property object
    is a JS object used as a map from property names to values; the code only
    reads and writes the [id] and [href] properties, which it types as
    strings. *)

#[warnings="-register-all"]
Inductive Node : Type :=
  | Element (tagName : string) (properties : gmap string string) (children : list Node)
  | Text (value : string)
  | Comment (value : string)
  | Doctype.

(** A [Root] node is its list of children. *)
Record Root : Type := mkRoot { rootChildren : list Node }.

Definition childrenOf (n : Node) : list Node :=
  match n with
  | Element _ _ cs => cs
  | _ => []
  end.

(** ** Results of code that can throw

    The only [throw] of the source is the
    ["Parent node not found. Make sure the headings are sorted by depth."]
    error of the shallower branch (the specification's InvariantViolation). *)

Inductive result (A : Type) : Type :=
  | Ok (a : A)
  | ParentNodeNotFound.
Arguments Ok {A} a.
Arguments ParentNodeNotFound {A}.

Definition isOk {A} (r : result A) : bool :=
  match r with Ok _ => true | ParentNodeNotFound => false end.

(** ** Headings and options *)

Record Heading : Type := mkHeading { depth : nat; slug : string; text : string }.

(** [Required<RehypeCustomTocOptions>].  [maxDepth] is only compared with
    heading depths, which are 1 to 6: a natural number stands for every
    number with the same comparisons (a negative one for 0, a fraction for
    its floor). *)
Record Options : Type := mkOptions {
  template : string → string;
  maxDepth : nat;
  ordered : bool
}.

(** ** References into the list under construction

    [currentParent] and the entries of [parents] are references to elements of
    the tree rooted at [toc].  A reference is modelled by the path (child
    indices from the root) of the element it points to; the tree only grows
    by [children.push], so a path keeps naming the same element. *)

Definition path : Type := list nat.

Fixpoint nodeAt (p : path) (t : Node) : option Node :=
  match p with
  | [] => Some t
  | i :: p' => childrenOf t !! i ≫= nodeAt p'
  end.

(** [ref.children.push(c)] for the element that [p] refers to. *)
Fixpoint pushChild (p : path) (c : Node) (t : Node) {struct p} : Node :=
  match t with
  | Element tag props cs =>
      match p with
      | [] => Element tag props (cs ++ [c])
      | i :: p' => Element tag props (alter (pushChild p' c) i cs)
      end
  | _ => t
  end.

Definition childrenAt (p : path) (t : Node) : list Node :=
  from_option childrenOf [] (nodeAt p t).

(** ** The outline builder (lines 83-88 and 109-148 of [generateToc]) *)

Definition listTag (ord : bool) : string := if ord then "ol" else "ul".

(** [h("li", h("a", { href: `#${heading.slug}` }, heading.text))] *)
Definition li (h : Heading) : Node :=
  Element "li" ∅ [Element "a" {["href" := "#" +:+ slug h]} [Text (text h)]].

Record BuildState : Type := mkBuildState {
  toc : Node;
  currentDepth : nat;
  currentParent : path;
  parents : list path
}.

Definition emptyToc (ord : bool) : Node := Element (listTag ord) ∅ [].

Definition initState (ord : bool) (first : Heading) : BuildState :=
  {| toc := emptyToc ord; currentDepth := depth first;
     currentParent := []; parents := [[]] |}.

(** The inner [for] of the shallower branch: [n] times [parents.pop()], then
    read the new last entry and throw when there is none. *)
Fixpoint popParents (n : nat) (ps : list path) (cur : path) : result (list path * path) :=
  match n with
  | 0 => Ok (ps, cur)
  | S n' =>
      let ps' := removelast ps in
      match last ps' with
      | None => ParentNodeNotFound
      | Some parentNode => popParents n' ps' parentNode
      end
  end.

(** One iteration of [for (const heading of headings)]. *)
Definition step (maxD : nat) (ord : bool) (st : BuildState) (h : Heading) : result BuildState :=
  if maxD <? depth h then Ok st
  else if depth h =? currentDepth st then
    Ok {| toc := pushChild (currentParent st) (li h) (toc st);
          currentDepth := depth h;
          currentParent := currentParent st;
          parents := parents st |}
  else if currentDepth st <? depth h then
    let ul := Element (listTag ord) ∅ [li h] in
    let ref := currentParent st ++ [length (childrenAt (currentParent st) (toc st))] in
    Ok {| toc := pushChild (currentParent st) ul (toc st);
          currentDepth := depth h;
          currentParent := ref;
          parents := parents st ++ [ref] |}
  else
    match popParents (currentDepth st - depth h) (parents st) (currentParent st) with
    | ParentNodeNotFound => ParentNodeNotFound
    | Ok (ps, cur) =>
        Ok {| toc := pushChild cur (li h) (toc st);
              currentDepth := depth h;
              currentParent := cur;
              parents := ps |}
    end.

Fixpoint run (maxD : nat) (ord : bool) (st : BuildState) (hs : list Heading) : result BuildState :=
  match hs with
  | [] => Ok st
  | h :: hs' =>
      match step maxD ord st h with
      | ParentNodeNotFound => ParentNodeNotFound
      | Ok st' => run maxD ord st' hs'
      end
  end.

(** The list element [toc] after the loop.  [currentDepth] starts at
    [headings[0].depth]; with no heading the loop is never entered and [toc]
    stays the empty list. *)
Definition buildToc (maxD : nat) (ord : bool) (hs : list Heading) : result Node :=
  match hs with
  | [] => Ok (emptyToc ord)
  | first :: _ =>
      match run maxD ord (initState ord first) hs with
      | ParentNodeNotFound => ParentNodeNotFound
      | Ok st => Ok (toc st)
      end
  end.

(** ** Notions used to state the builder's properties *)

(** A heading takes part in the outline when [heading.depth > maxDepth] does
    not hold. *)
Definition eligible (maxD : nat) (h : Heading) : Prop := ¬ (maxD < depth h).

#[global] Instance eligible_dec maxD h : Decision (eligible maxD h).
Proof. unfold eligible. apply _. Defined.

(** Flattening an outline back to depths: for each list item, in document
    order, the number of list elements ([ul]/[ol]) around it. *)
Fixpoint flattenDepths (level : nat) (n : Node) : list nat :=
  match n with
  | Element tag _ cs =>
      if bool_decide (tag = "ul" ∨ tag = "ol") then flat_map (flattenDepths (S level)) cs
      else if bool_decide (tag = "li") then level :: flat_map (flattenDepths level) cs
      else flat_map (flattenDepths level) cs
  | _ => []
  end.

(** The depths and the height of the stack alone decide whether the build
    throws: [underflows maxD cur frames ds] follows [currentDepth] ([cur]) and
    [parents.length] ([frames]) over the depths [ds] and tells whether some
    shallower transition asks for at least as many pops as there are
    frames. *)
Fixpoint underflows (maxD cur frames : nat) (ds : list nat) : bool :=
  match ds with
  | [] => false
  | d :: ds' =>
      if maxD <? d then underflows maxD cur frames ds'
      else if d =? cur then underflows maxD cur frames ds'
      else if cur <? d then underflows maxD d (S frames) ds'
      else (frames <=? cur - d) || underflows maxD d (frames - (cur - d)) ds'
  end.

(** Depth sequences that never go above [base] and go deeper one level at a
    time (over-deep headings aside). *)
Fixpoint stepwise (maxD base cur : nat) (ds : list nat) : bool :=
  match ds with
  | [] => true
  | d :: ds' =>
      if maxD <? d then stepwise maxD base cur ds'
      else (base <=? d) && (d <=? S cur) && stepwise maxD base d ds'
  end.

(** The invariant of the loop: [parents] is not empty, [currentParent] is its
    last entry, and every entry refers to an element of the tree. *)
Definition isElementAt (t : Node) (p : path) : Prop :=
  ∃ tag props cs, nodeAt p t = Some (Element tag props cs).

Definition wfState (st : BuildState) : Prop :=
  last (parents st) = Some (currentParent st) ∧ Forall (isElementAt (toc st)) (parents st).

(** The link of a heading, the only child of its item. *)
Definition link (h : Heading) : Node :=
  Element "a" {["href" := "#" +:+ slug h]} [Text (text h)].

(** The [a] elements of a tree, in document order. *)
Fixpoint links (n : Node) : list Node :=
  match n with
  | Element tag _ cs => (if bool_decide (tag = "a") then [n] else []) ++ flat_map links cs
  | _ => []
  end.

(** The path [p] runs from a list element down through last children that
    are list elements of the same kind: the open lists of the outline. *)
Fixpoint spine (ord : bool) (p : path) (t : Node) {struct p} : Prop :=
  match t with
  | Element tag _ cs =>
      tag = listTag ord ∧
      match p with
      | [] => True
      | i :: p' => S i = length cs ∧ ∃ x, cs !! i = Some x ∧ spine ord p' x
      end
  | _ => False
  end.

(** The invariant behind the shape of the outline: [currentParent] is the
    last entry of [parents], and the entry at height [k] is the open list
    [k] levels below the root. *)
Definition spineState (ord : bool) (st : BuildState) : Prop :=
  last (parents st) = Some (currentParent st) ∧
  ∀ k q, parents st !! k = Some q → length q = k ∧ spine ord q (toc st).

(** The height of [parents] at which each heading that takes part is
    pushed, following [currentDepth] and [parents.length] as [underflows]
    does. *)
Fixpoint nestingLevels (maxD cur frames : nat) (ds : list nat) : list nat :=
  match ds with
  | [] => []
  | d :: ds' =>
      if maxD <? d then nestingLevels maxD cur frames ds'
      else if d =? cur then frames :: nestingLevels maxD cur frames ds'
      else if cur <? d then S frames :: nestingLevels maxD d (S frames) ds'
      else (frames - (cur - d)) :: nestingLevels maxD d (frames - (cur - d)) ds'
  end.

(** Every element of the tree has one of the given tag names. *)
Fixpoint usesOnly (tags : list string) (n : Node) : bool :=
  match n with
  | Element tag _ cs => bool_decide (tag ∈ tags) && forallb (usesOnly tags) cs
  | _ => true
  end.

(** Depths that never go down, starting from [cur]. *)
Fixpoint nonDecreasing (cur : nat) (ds : list nat) : bool :=
  match ds with
  | [] => true
  | d :: ds' => (cur <=? d) && nonDecreasing d ds'
  end.

(** ** The slug generator (github-slugger)

    [slugger.slug(value)] keeps an object [occurrences] from slugs to counters.
    It starts from the plain slug of [value] and, while the candidate is a key
    of [occurrences], increments the counter of the plain slug and tries
    [originalSlug + "-" + counter]; the result is then recorded with counter 0.
    The plain slug function (lower-casing, removal of punctuation, spaces to
    dashes) is a parameter, [slugify]. *)

Definition candidate (originalSlug : string) (n : nat) : string :=
  originalSlug +:+ "-" +:+ pretty n.

(** The [while] loop.  The first candidate is [originalSlug] itself, so
    inside the loop [originalSlug] is a key of [occurrences] and the increment
    finds a counter.  [fuel] bounds the number of iterations. *)
Fixpoint slugLoop (fuel : nat) (occ : gmap string nat) (originalSlug result : string)
    : option (string * gmap string nat) :=
  match occ !! result with
  | None => Some (result, occ)
  | Some _ =>
      match fuel with
      | 0 => None
      | S fuel' =>
          let n := S (default 0 (occ !! originalSlug)) in
          slugLoop fuel' (<[originalSlug := n]> occ) originalSlug (candidate originalSlug n)
      end
  end.

Definition headingTags : list (string * nat) :=
  [("h1", 1); ("h2", 2); ("h3", 3); ("h4", 4); ("h5", 5); ("h6", 6)].

(** [["h1", ..., "h6"].includes(node.tagName)] and
    [parseInt(node.tagName.slice(1), 10)]. *)
Definition headingDepth (tag : string) : option nat :=
  (list_to_map headingTags : gmap string nat) !! tag.

Definition newline : string := String "010"%char EmptyString.
Definition quote : string := String "034"%char EmptyString.

Section Collaborators.

(** The external collaborators: [toText] (hast-util-to-text), [String.trim],
    [String.toLowerCase], the stateless [slug] function of github-slugger,
    [toHtml] and [fromHtml] (with [fragment: true], [.children] taken). *)
Variable toText : Node → string.
Variable trim : string → string.
Variable slugify : string → string.
Variable toLowerCase : string → string.
Variable toHtml : Node → string.
Variable fromHtml : string → list Node.

(** [slugger.slug(value)]: the loop runs at most once per key of
    [occurrences] ([slugLoop_total]), so the fall-back branch is never taken. *)
Definition sluggerSlug (occ : gmap string nat) (value : string) : string * gmap string nat :=
  let originalSlug := slugify value in
  match slugLoop (size occ) occ originalSlug originalSlug with
  | Some (result, occ') => (result, <[result := 0]> occ')
  | None => (originalSlug, occ)
  end.

(** [(node.properties["id"] as string) || slugger.slug(text)]: an absent or
    empty [id] is falsy. *)
Definition resolveId (existing : option string) (txt : string) (occ : gmap string nat)
    : string * gmap string nat :=
  match existing with
  | Some s => if decide (s = "") then sluggerSlug occ txt else (s, occ)
  | None => sluggerSlug occ txt
  end.

(** ** Heading collection (lines 90-105)

    [visit(tree, "element", visitor)] walks the tree in document order
    (pre-order); the visitor only writes [properties.id], so the walk is a
    plain structural traversal threading the slugger and the [headings]
    array. *)

Definition visitList (f : Node → gmap string nat → Node * gmap string nat * list Heading)
    : list Node → gmap string nat → list Node * gmap string nat * list Heading :=
  fix go (cs : list Node) (occ : gmap string nat) :=
    match cs with
    | [] => ([], occ, [])
    | c :: cs' =>
        let '(c', occ1, hs1) := f c occ in
        let '(cs'', occ2, hs2) := go cs' occ1 in
        (c' :: cs'', occ2, hs1 ++ hs2)
    end.

(** The visitor on a heading element: the new property object, the slugger
    state and the pushed record. *)
Definition visitHeading (d : nat) (tag : string) (props : gmap string string)
    (cs : list Node) (occ : gmap string nat) : gmap string string * gmap string nat * Heading :=
  let txt := trim (toText (Element tag props cs)) in
  let '(slg, occ') := resolveId (props !! "id") txt occ in
  (<["id" := slg]> props, occ', {| depth := d; slug := slg; text := txt |}).

Fixpoint visitNode (n : Node) (occ : gmap string nat) : Node * gmap string nat * list Heading :=
  match n with
  | Element tag props cs =>
      match headingDepth tag with
      | Some d =>
          let '(props', occ1, h) := visitHeading d tag props cs occ in
          let '(cs', occ2, hs) := visitList visitNode cs occ1 in
          (Element tag props' cs', occ2, h :: hs)
      | None =>
          let '(cs', occ2, hs) := visitList visitNode cs occ in
          (Element tag props cs', occ2, hs)
      end
  | _ => (n, occ, [])
  end.

(** The tree after the walk and the [headings] array; the slugger is new. *)
Definition collectHeadings (tree : Root) : Root * list Heading :=
  let '(cs', _, hs) := visitList visitNode (rootChildren tree) ∅ in
  (mkRoot cs', hs).

(** ** [generateToc]

    The function mutates [tree] and returns the nodes or throws: the model
    returns the tree after the call together with the result. *)
Definition generateToc (tree : Root) (options : Options) : Root * result (list Node) :=
  let '(tree', headings) := collectHeadings tree in
  match headings with
  | [] => (tree', Ok [])
  | _ :: _ =>
      match buildToc (maxDepth options) (ordered options) headings with
      | ParentNodeNotFound => (tree', ParentNodeNotFound)
      | Ok t => (tree', Ok (fromHtml (template options (toHtml t))))
      end
  end.

(** ** Placement (the [transformer], lines 165-194)

    [visitParents(tree, "comment", visitor)] walks the children of a parent by
    index over the live array: [offset] starts at 0, the child at [offset] is
    visited (the visitor runs on a comment, the walk descends into an
    element), then [offset] moves on by one, until it reaches the current
    length.  A node of the document is one object at one place, so
    [children.indexOf(node)] is the offset at which the walk reached it (the
    inserted nodes are the same objects at every place of insertion, which
    matters only when they hold a marker themselves). *)

Definition isMarker (value : string) : bool :=
  bool_decide (toLowerCase (trim value) = "toc").

(** [children.splice(index, 1, ...tocNodes)] *)
Definition splice (index : nat) (tocNodes cs : list Node) : list Node :=
  take index cs ++ tocNodes ++ drop (S index) cs.

(** The walk over the children [cs] of one parent from [offset] on.  It
    returns the children of that parent after the walk, the [tocInserted]
    flag and whether the visitor has replaced the parent itself in the
    grandparent (a [p] whose only child is the marker). *)
Fixpoint walk (fuel : nat) (tocNodes : list Node) (parentIsP : bool) (tocInserted : bool)
    (cs : list Node) (offset : nat) : option (list Node * bool * bool) :=
  match fuel with
  | 0 => None
  | S fuel' =>
      match cs !! offset with
      | None => Some (cs, tocInserted, false)
      | Some (Comment value) =>
          if isMarker value then
            if parentIsP && (length cs =? 1) then Some (cs, true, true)
            else walk fuel' tocNodes parentIsP true (splice offset tocNodes cs) (S offset)
          else walk fuel' tocNodes parentIsP tocInserted cs (S offset)
      | Some (Element tag props es) =>
          match walk fuel' tocNodes (bool_decide (tag = "p")) tocInserted es 0 with
          | None => None
          | Some (es', inserted', replaced) =>
              if replaced then
                walk fuel' tocNodes parentIsP inserted' (splice offset tocNodes cs) (S offset)
              else
                walk fuel' tocNodes parentIsP inserted'
                     (<[offset := Element tag props es']> cs) (S offset)
          end
      | Some _ => walk fuel' tocNodes parentIsP tocInserted cs (S offset)
      end
  end.

(** The transformer: the tree after the call and whether it threw; [None]
    when [fuel] does not suffice for the walk. *)
Definition transformer (fuel : nat) (options : Options) (tree : Root) : option (Root * result unit) :=
  let '(tree1, r) := generateToc tree options in
  match r with
  | ParentNodeNotFound => Some (tree1, ParentNodeNotFound)
  | Ok tocNodes =>
      match walk fuel tocNodes false false (rootChildren tree1) 0 with
      | None => None
      | Some (cs, tocInserted, _) =>
          Some (mkRoot (if tocInserted then cs else tocNodes ++ cs), Ok tt)
      end
  end.

(** ** Notions used to state the properties of the placement *)

(** A marker comment occurs in the node. *)
Fixpoint hasMarker (n : Node) : bool :=
  match n with
  | Comment value => isMarker value
  | Element _ _ cs => existsb hasMarker cs
  | _ => false
  end.

(** A [p] element whose only child is a marker comment. *)
Definition isMarkerParagraph (tag : string) (cs : list Node) : bool :=
  bool_decide (tag = "p") && match cs with [Comment value] => isMarker value | _ => false end.

(** Every marker comment, or the paragraph it is alone in, replaced by
    [tocNodes]. *)
Fixpoint replaceMarkers (tocNodes : list Node) (n : Node) : list Node :=
  match n with
  | Comment value => if isMarker value then tocNodes else [n]
  | Element tag props cs =>
      if isMarkerParagraph tag cs then tocNodes
      else [Element tag props (flat_map (replaceMarkers tocNodes) cs)]
  | _ => [n]
  end.

(** The node at path [p] below the children [cs], replaced in its parent
    by [tocNodes]. *)
Fixpoint replaceAt (p : path) (tocNodes cs : list Node) {struct p} : list Node :=
  match p with
  | [] => cs
  | i :: p' =>
      match p', cs !! i with
      | [], _ => splice i tocNodes cs
      | _ :: _, Some (Element tag props es) =>
          <[i := Element tag props (replaceAt p' tocNodes es)]> cs
      | _ :: _, _ => cs
      end
  end.

(** The only marker below the children [cs] is the comment at path [p], and
    it is not the only child of a [p] element ([parentIsP] tells whether the
    parent of [cs] is a [p] element). *)
Fixpoint markerAt (parentIsP : bool) (p : path) (cs : list Node) {struct p} : bool :=
  match p with
  | [] => false
  | i :: p' =>
      negb (existsb hasMarker (take i cs)) && negb (existsb hasMarker (drop (S i) cs))
      && match p', cs !! i with
         | [], Some (Comment value) =>
             isMarker value && negb (parentIsP && (length cs =? 1))
         | _ :: _, Some (Element tag props es) => markerAt (bool_decide (tag = "p")) p' es
         | _, _ => false
         end
  end.

(** The only marker below the children [cs] is the only child of the [p]
    element at path [p]. *)
Fixpoint markerParagraphAt (p : path) (cs : list Node) {struct p} : bool :=
  match p with
  | [] => false
  | i :: p' =>
      negb (existsb hasMarker (take i cs)) && negb (existsb hasMarker (drop (S i) cs))
      && match p', cs !! i with
         | [], Some (Element tag props es) => isMarkerParagraph tag es
         | _ :: _, Some (Element tag props es) => markerParagraphAt p' es
         | _, _ => false
         end
  end.

(** The walk from [offset] ends with result [r], given enough fuel. *)
Definition walksTo (tocNodes : list Node) (parentIsP tocInserted : bool) (cs : list Node)
    (offset : nat) (r : list Node * bool * bool) : Prop :=
  ∃ fuel0, ∀ fuel, fuel0 ≤ fuel → walk fuel tocNodes parentIsP tocInserted cs offset = Some r.

(** What the walk does below one node: it reports a marker paragraph to the
    parent, and otherwise ends with every marker replaced. *)
Definition replacedChildren (tocNodes : list Node) (n : Node) : Prop :=
  match n with
  | Element tag props es =>
      ∀ ins,
        if isMarkerParagraph tag es
        then walksTo tocNodes (bool_decide (tag = "p")) ins es 0 (es, true, true)
        else walksTo tocNodes (bool_decide (tag = "p")) ins es 0
               (flat_map (replaceMarkers tocNodes) es, ins || existsb hasMarker es, false)
  | _ => True
  end.

(** ** Options of the plugin *)

Definition defaultTemplate (html : string) : string :=
  trim (newline +:+ "<aside class=" +:+ quote +:+ "toc" +:+ quote +:+ ">" +:+ newline
        +:+ "    <h2>Contents</h2>" +:+ newline
        +:+ "    <nav>" +:+ newline
        +:+ "        " +:+ html +:+ newline
        +:+ "    </nav>" +:+ newline
        +:+ "</aside>").

Definition DEFAULT_OPTIONS : Options :=
  {| template := defaultTemplate; maxDepth := 3; ordered := false |}.

(** ** Notions used to state the properties of the collection *)

(** What the visitor reads on the headings of a tree, in visit order: the
    [id] property and the trimmed text. *)
Fixpoint headingInputs (n : Node) : list (option string * string) :=
  match n with
  | Element tag props cs =>
      (if headingDepth tag is Some _ then [(props !! "id", trim (toText n))] else [])
      ++ flat_map headingInputs cs
  | _ => []
  end.

(** The depth and the trimmed text of the heading elements of a tree, in
    visit order. *)
Fixpoint headingFacts (n : Node) : list (nat * string) :=
  match n with
  | Element tag props cs =>
      (if headingDepth tag is Some d then [(d, trim (toText n))] else [])
      ++ flat_map headingFacts cs
  | _ => []
  end.

(** Line 96 over a sequence of headings: the resolved identifiers and the
    slugger afterwards. *)
Fixpoint resolveAll (inputs : list (option string * string)) (occ : gmap string nat)
    : list string * gmap string nat :=
  match inputs with
  | [] => ([], occ)
  | (existing, txt) :: rest =>
      let '(slg, occ1) := resolveId existing txt occ in
      let '(slugs, occ2) := resolveAll rest occ1 in
      (slg :: slugs, occ2)
  end.

End Collaborators.

(** A heading has no identifier of its own when [id] is absent or empty. *)
Definition lacksId (existing : option string) : Prop :=
  existing = None ∨ existing = Some "".

#[global] Instance lacksId_dec existing : Decision (lacksId existing).
Proof. unfold lacksId. apply _. Defined.

(** The identifiers that headings bring along, and the resolved identifiers
    of the headings that had none. *)
Definition existingIds (inputs : list (option string * string)) : list string :=
  filter (λ s, s ≠ "") (omap fst inputs).

Definition generatedSlugs (inputs : list (option string * string)) (slugs : list string)
    : list string :=
  snd <$> filter (λ p, lacksId p.1.1) (zip inputs slugs).

(** The [id] property of the heading elements of a tree, in document
    order. *)
Fixpoint headingIds (n : Node) : list (option string) :=
  match n with
  | Element tag props cs =>
      (if headingDepth tag is Some _ then [props !! "id"] else [])
      ++ flat_map headingIds cs
  | _ => []
  end.

(** The tree without the [id] property of its heading elements. *)
Fixpoint stripHeadingIds (n : Node) : Node :=
  match n with
  | Element tag props cs =>
      Element tag (if headingDepth tag is Some _ then delete "id" props else props)
              (map stripHeadingIds cs)
  | _ => n
  end.

(** Every heading element of the tree has an [id] property. *)
Fixpoint headingsHaveId (n : Node) : bool :=
  match n with
  | Element tag props cs =>
      (if headingDepth tag is Some _ then bool_decide (is_Some (props !! "id")) else true)
      && forallb headingsHaveId cs
  | _ => true
  end.

(** A slugger in a second run over the tree, against the slugger of the
    first run at the same place: it is still new, or it holds the empty slug
    alone, which the first one holds as well. *)
Definition sluggerAgain (occ1 occ2 : gmap string nat) : Prop :=
  occ2 = ∅ ∨ (occ2 = {["" := 0]} ∧ "" ∈ dom occ1).

(** ** Sample collaborators

    Concrete instances used to evaluate the code on examples: the text of a
    node is the concatenation of its text descendants, [trim] removes ASCII
    white space at both ends, and [slugifyAscii] is github-slugger's plain
    slug on ASCII input (lower-case, drop every ASCII character other than
    letters, digits, [-], [_] and space, then turn spaces into dashes). *)

Fixpoint toTextSample (n : Node) : string :=
  match n with
  | Element _ _ cs => foldr (λ c acc, toTextSample c +:+ acc) "" cs
  | Text v => v
  | _ => ""
  end.

Definition isWhiteSpace (c : ascii) : bool :=
  bool_decide (c ∈ [" "; "009"; "010"; "011"; "012"; "013"]%char).

Fixpoint trimStart (s : string) : string :=
  match s with
  | String c s' => if isWhiteSpace c then trimStart s' else s
  | EmptyString => EmptyString
  end.

Definition trimSample (s : string) : string :=
  String.rev (trimStart (String.rev (trimStart s))).

Definition slugChar (c : ascii) : option ascii :=
  let n := nat_of_ascii c in
  if bool_decide (65 ≤ n ≤ 90) then Some (ascii_of_nat (n + 32))
  else if bool_decide (n = 32) then Some "-"%char
  else if bool_decide (n = 45 ∨ 48 ≤ n ≤ 57 ∨ n = 95 ∨ 97 ≤ n ≤ 122 ∨ 128 ≤ n) then Some c
  else None.

Fixpoint slugifyAscii (s : string) : string :=
  match s with
  | String c s' =>
      match slugChar c with
      | Some c' => String c' (slugifyAscii s')
      | None => slugifyAscii s'
      end
  | EmptyString => EmptyString
  end.

(** [toLowerCase] on ASCII letters. *)
Fixpoint lowerAscii (s : string) : string :=
  match s with
  | String c s' =>
      let n := nat_of_ascii c in
      String (if bool_decide (65 ≤ n ≤ 90) then ascii_of_nat (n + 32) else c) (lowerAscii s')
  | EmptyString => EmptyString
  end.

(** A serializer, and a parser for the markup it writes (text without [<],
    attribute values without quotes). *)

Definition attributes (props : gmap string string) : string :=
  foldr (λ kv acc, " " +:+ kv.1 +:+ "=" +:+ quote +:+ kv.2 +:+ quote +:+ acc) ""
        (map_to_list props).

Fixpoint toHtmlSample (n : Node) : string :=
  match n with
  | Element tag props cs =>
      "<" +:+ tag +:+ attributes props +:+ ">"
      +:+ foldr (λ c acc, toHtmlSample c +:+ acc) "" cs +:+ "</" +:+ tag +:+ ">"
  | Text v => v
  | Comment v => "<!--" +:+ v +:+ "-->"
  | Doctype => "<!doctype html>"
  end.

Fixpoint skip (n : nat) (s : string) : string :=
  match n, s with
  | S n', String _ s' => skip n' s'
  | _, _ => s
  end.

(** The rest of [s] behind the prefix [p]. *)
Fixpoint dropPrefix (p s : string) : option string :=
  match p, s with
  | EmptyString, _ => Some s
  | String a p', String b s' => if decide (a = b) then dropPrefix p' s' else None
  | _, _ => None
  end.

(** [s] split in front of the first occurrence of [stop]. *)
Fixpoint splitBefore (stop s : string) : string * string :=
  match dropPrefix stop s with
  | Some _ => (EmptyString, s)
  | None =>
      match s with
      | String a s' => let '(l, r) := splitBefore stop s' in (String a l, r)
      | EmptyString => (EmptyString, EmptyString)
      end
  end.

Fixpoint parseAttributes (fuel : nat) (s : string) : gmap string string * string :=
  match fuel with
  | 0 => (∅, s)
  | S fuel' =>
      match dropPrefix " " s with
      | Some s1 =>
          let '(key, s2) := splitBefore "=" s1 in
          let '(val, s3) := splitBefore quote (skip 2 s2) in
          let '(props, s4) := parseAttributes fuel' (skip 1 s3) in
          (<[key := val]> props, s4)
      | None => (∅, s)
      end
  end.

Definition tagNameEnd (s : string) : string * string :=
  let '(a, _) := splitBefore " " s in
  let '(b, _) := splitBefore ">" s in
  if String.length a <? String.length b then splitBefore " " s else splitBefore ">" s.

Fixpoint parseNodes (fuel : nat) (s : string) : list Node * string :=
  match fuel with
  | 0 => ([], s)
  | S fuel' =>
      match s with
      | EmptyString => ([], s)
      | _ =>
          match dropPrefix "</" s with
          | Some _ => ([], s)
          | None =>
              match dropPrefix "<!--" s with
              | Some s1 =>
                  let '(v, s2) := splitBefore "-->" s1 in
                  let '(ns, s3) := parseNodes fuel' (skip 3 s2) in
                  (Comment v :: ns, s3)
              | None =>
                  match dropPrefix "<" s with
                  | Some s1 =>
                      let '(tag, s2) := tagNameEnd s1 in
                      let '(props, s3) := parseAttributes fuel' s2 in
                      let '(cs, s4) := parseNodes fuel' (skip 1 s3) in
                      let '(_, s5) := splitBefore ">" s4 in
                      let '(ns, s6) := parseNodes fuel' (skip 1 s5) in
                      (Element tag props cs :: ns, s6)
                  | None =>
                      let '(v, s1) := splitBefore "<" s in
                      let '(ns, s2) := parseNodes fuel' s1 in
                      (Text v :: ns, s2)
                  end
              end
          end
      end
  end.

Definition fromHtmlSample (s : string) : list Node := (parseNodes (String.length s) s).1.

(** The model with the sample collaborators. *)
Definition collectHeadingsSample : Root → Root * list Heading :=
  collectHeadings toTextSample trimSample slugifyAscii.

Definition generateTocSample : Root → Options → Root * result (list Node) :=
  generateToc toTextSample trimSample slugifyAscii toHtmlSample fromHtmlSample.

Definition transformerSample : nat → Options → Root → option (Root * result unit) :=
  transformer toTextSample trimSample slugifyAscii lowerAscii toHtmlSample fromHtmlSample.

Definition defaultOptionsSample : Options := DEFAULT_OPTIONS trimSample.

(** * Properties *)

(** ** Paths and [children.push] *)

Lemma nodeAt_app p q t : nodeAt (p ++ q) t = nodeAt p t ≫= nodeAt q.
Proof.
  revert t. induction p as [|i p IH]; intros t; simpl; [done|].
  destruct (childrenOf t !! i) as [x|]; simpl; [apply IH | done].
Qed.

Lemma nodeAt_cons_inv i p t n :
  nodeAt (i :: p) t = Some n →
  ∃ tag props cs x, t = Element tag props cs ∧ cs !! i = Some x ∧ nodeAt p x = Some n.
Proof.
  simpl. destruct t as [tag props cs| | |]; simpl; try done.
  destruct (cs !! i) as [x|] eqn:Hx; simpl; [|done].
  intros Hn. by exists tag, props, cs, x.
Qed.

Lemma nodeAt_pushChild_same p c t tag props cs :
  nodeAt p t = Some (Element tag props cs) →
  nodeAt p (pushChild p c t) = Some (Element tag props (cs ++ [c])).
Proof.
  revert t. induction p as [|i p IH]; intros t Hn.
  - simpl in Hn. injection Hn as ->. done.
  - apply nodeAt_cons_inv in Hn as (tag0 & props0 & cs0 & x & -> & Hx & Hn).
    simpl. rewrite list_lookup_alter_eq, Hx. simpl. by apply IH.
Qed.

Lemma nodeAt_pushChild_new p c t tag props cs :
  nodeAt p t = Some (Element tag props cs) →
  nodeAt (p ++ [length cs]) (pushChild p c t) = Some c.
Proof.
  intros Hn. rewrite nodeAt_app, (nodeAt_pushChild_same _ _ _ _ _ _ Hn). simpl.
  rewrite lookup_app_r, Nat.sub_diag by lia. done.
Qed.

Lemma isElementAt_pushChild q p c t :
  isElementAt t q → isElementAt (pushChild p c t) q.
Proof.
  revert p t. induction q as [|i q IH]; intros p t (tag & props & cs & Hn).
  - simpl in Hn. injection Hn as ->. destruct p; simpl; by eexists _, _, _.
  - apply nodeAt_cons_inv in Hn as (tag0 & props0 & cs0 & x & -> & Hx & Hn).
    assert (isElementAt x q) as Hq by (by exists tag, props, cs).
    destruct p as [|j p]; unfold isElementAt; simpl.
    + rewrite lookup_app_l by (by eapply lookup_lt_Some).
      rewrite Hx. simpl. by exists tag, props, cs.
    + destruct (decide (j = i)) as [->|Hne].
      * rewrite list_lookup_alter_eq, Hx. simpl. apply (IH p x Hq).
      * rewrite list_lookup_alter_ne, Hx by done. simpl. by exists tag, props, cs.
Qed.

(** ** The stack of parents *)

Lemma popParents_spec n ps cur :
  match popParents n ps cur with
  | ParentNodeNotFound => 0 < n ∧ length ps ≤ n
  | Ok (ps', cur') =>
      ps' = take (length ps - n) ps ∧ (n = 0 ∨ n < length ps) ∧
      (if n is 0 then cur' = cur else last ps' = Some cur')
  end.
Proof.
  revert ps cur. induction n as [|n IH]; intros ps cur; simpl.
  - rewrite Nat.sub_0_r, take_ge by lia. split; [done|]. split; [by left|done].
  - assert (removelast ps = take (length ps - 1) ps) as ->.
    { rewrite removelast_firstn_len. f_equal. lia. }
    destruct (last (take (length ps - 1) ps)) as [q|] eqn:Hlast.
    + assert (0 < length ps - 1) as Hlen.
      { destruct (decide (length ps - 1 = 0)) as [Hz|]; [|lia].
        rewrite Hz in Hlast. done. }
      specialize (IH (take (length ps - 1) ps) q). rewrite length_take in IH.
      destruct (popParents n (take (length ps - 1) ps) q) as [[ps' cur']|].
      * destruct IH as (-> & Hn & Hcur). split; [|split].
        -- rewrite take_take. f_equal. lia.
        -- right. lia.
        -- destruct n; [|done]. subst cur'.
           rewrite Nat.sub_0_r, take_ge by (rewrite length_take; lia). done.
      * lia.
    + apply last_None in Hlast. apply (f_equal length) in Hlast.
      rewrite length_take in Hlast. simpl in Hlast. lia.
Qed.

Lemma popParents_throws n ps cur :
  popParents n ps cur = ParentNodeNotFound ↔ 0 < n ∧ length ps ≤ n.
Proof.
  pose proof (popParents_spec n ps cur) as Hs.
  destruct (popParents n ps cur) as [[ps' cur']|]; [|done].
  split; [done|]. destruct Hs as (_ & Hn & _). lia.
Qed.

Lemma popParents_length n ps cur ps' cur' :
  popParents n ps cur = Ok (ps', cur') → length ps' = length ps - n.
Proof.
  pose proof (popParents_spec n ps cur) as Hs. intros Heq. rewrite Heq in Hs.
  destruct Hs as (-> & _ & _). rewrite length_take. lia.
Qed.

(** ** One iteration of the loop, branch by branch *)

Ltac step_branches :=
  unfold step;
  repeat match goal with
  | |- context [?a <? ?b] => destruct (Nat.ltb_spec a b)
  | |- context [?a =? ?b] => destruct (Nat.eqb_spec a b)
  end; try lia.

Lemma step_skip maxD ord st h : maxD < depth h → step maxD ord st h = Ok st.
Proof. intros. by step_branches. Qed.

Lemma step_same maxD ord st h :
  depth h ≤ maxD → depth h = currentDepth st →
  step maxD ord st h =
    Ok {| toc := pushChild (currentParent st) (li h) (toc st); currentDepth := depth h;
          currentParent := currentParent st; parents := parents st |}.
Proof. intros. by step_branches. Qed.

Lemma step_deeper maxD ord st h :
  depth h ≤ maxD → currentDepth st < depth h →
  step maxD ord st h =
    let ref := currentParent st ++ [length (childrenAt (currentParent st) (toc st))] in
    Ok {| toc := pushChild (currentParent st) (Element (listTag ord) ∅ [li h]) (toc st);
          currentDepth := depth h; currentParent := ref; parents := parents st ++ [ref] |}.
Proof. intros. by step_branches. Qed.

Lemma step_shallower maxD ord st h :
  depth h ≤ maxD → depth h < currentDepth st →
  step maxD ord st h =
    match popParents (currentDepth st - depth h) (parents st) (currentParent st) with
    | ParentNodeNotFound => ParentNodeNotFound
    | Ok (ps, cur) =>
        Ok {| toc := pushChild cur (li h) (toc st); currentDepth := depth h;
              currentParent := cur; parents := ps |}
    end.
Proof. intros. by step_branches. Qed.

(** A step throws exactly in the shallower branch, when the number of pops
    reaches the height of the stack. *)
Lemma step_throws maxD ord st h :
  step maxD ord st h = ParentNodeNotFound ↔
  depth h ≤ maxD ∧ depth h < currentDepth st ∧
  length (parents st) ≤ currentDepth st - depth h.
Proof.
  destruct (Nat.ltb_spec maxD (depth h)).
  { rewrite step_skip by done. split; [done | lia]. }
  destruct (Nat.lt_total (depth h) (currentDepth st)) as [Hlt|[Heq|Hgt]].
  - rewrite step_shallower by lia.
    pose proof (popParents_throws (currentDepth st - depth h) (parents st) (currentParent st)) as Hp.
    destruct (popParents _ _ _) as [[ps cur]|].
    + split; [done|]. intros (_ & _ & Hlen).
      assert (@Ok (list path * path) (ps, cur) = ParentNodeNotFound) by (apply Hp; lia). done.
    + split; [|done]. intros _. destruct Hp as [Hp _]. specialize (Hp eq_refl). lia.
  - rewrite step_same by lia. split; [done | lia].
  - rewrite step_deeper by lia. split; [done | lia].
Qed.

Lemma wfState_current st : wfState st → isElementAt (toc st) (currentParent st).
Proof.
  intros [Hlast Hall]. rewrite Forall_forall in Hall. apply Hall.
  by apply last_Some_elem_of.
Qed.

Lemma wfState_init ord first : wfState (initState ord first).
Proof.
  split; [done|]. apply Forall_singleton. by exists (listTag ord), ∅, [].
Qed.

Lemma wfState_step maxD ord st h st' :
  wfState st → step maxD ord st h = Ok st' → wfState st'.
Proof.
  intros Hwf. pose proof (wfState_current _ Hwf) as Hcur. destruct Hwf as [Hlast Hall].
  destruct (Nat.ltb_spec maxD (depth h)).
  { rewrite step_skip by done. by intros [= <-]. }
  destruct (Nat.lt_total (depth h) (currentDepth st)) as [Hlt|[Heq|Hgt]].
  - rewrite step_shallower by lia.
    pose proof (popParents_spec (currentDepth st - depth h) (parents st) (currentParent st)) as Hp.
    destruct (popParents _ _ _) as [[ps cur]|]; [|done].
    intros [= <-]. destruct Hp as (-> & _ & Hp). split; simpl.
    + destruct (currentDepth st - depth h) eqn:Hd; [lia | done].
    + apply Forall_take. eapply Forall_impl; [exact Hall|].
      intros q. apply isElementAt_pushChild.
  - rewrite step_same by lia. intros [= <-]. split; simpl; [done|].
    eapply Forall_impl; [exact Hall|]. intros q. apply isElementAt_pushChild.
  - rewrite step_deeper by lia. intros [= <-]. split; simpl.
    + apply last_snoc.
    + apply Forall_app. split.
      * eapply Forall_impl; [exact Hall|]. intros q. apply isElementAt_pushChild.
      * apply Forall_singleton. destruct Hcur as (tag & props & cs & Hn).
        exists (listTag ord), ∅, [li h]. unfold childrenAt. rewrite Hn. simpl.
        by eapply nodeAt_pushChild_new.
Qed.

Lemma wfState_run maxD ord hs : ∀ st st',
  wfState st → run maxD ord st hs = Ok st' → wfState st'.
Proof.
  induction hs as [|h hs IH]; intros st st' Hwf; simpl.
  - by intros [= <-].
  - destruct (step maxD ord st h) as [st1|] eqn:Hstep; [|done].
    apply IH. by eapply wfState_step.
Qed.

(** In every state that the loop reaches, [currentParent] refers to an
    element of the list under construction. *)
Lemma run_current_element maxD ord first hs st :
  run maxD ord (initState ord first) hs = Ok st → isElementAt (toc st) (currentParent st).
Proof.
  intros Hrun. apply wfState_current.
  eapply wfState_run; [apply wfState_init | exact Hrun].
Qed.

(** ** Over-deep headings inside the loop *)

Lemma run_filter maxD ord hs : ∀ st,
  run maxD ord st (filter (eligible maxD) hs) = run maxD ord st hs.
Proof.
  induction hs as [|h hs IH]; intros st; [done|].
  destruct (decide (eligible maxD h)) as [He|He].
  - rewrite filter_cons_True by done. simpl.
    destruct (step maxD ord st h); [apply IH | done].
  - rewrite filter_cons_False by done. simpl.
    rewrite step_skip by (unfold eligible in He; lia). apply IH.
Qed.

(** Removing the over-deep headings does not change the outline when the
    first heading itself is kept. *)
Lemma buildToc_filter maxD ord first rest :
  eligible maxD first →
  buildToc maxD ord (filter (eligible maxD) (first :: rest))
  = buildToc maxD ord (first :: rest).
Proof.
  intros Hfirst. rewrite filter_cons_True by done. unfold buildToc.
  rewrite <- (run_filter maxD ord (first :: rest)).
  by rewrite filter_cons_True by done.
Qed.

(** ** The depths decide whether the build throws *)

Lemma run_underflows maxD ord hs : ∀ st,
  isOk (run maxD ord st hs)
  = negb (underflows maxD (currentDepth st) (length (parents st)) (map depth hs)).
Proof.
  induction hs as [|h hs IH]; intros st; [done|]. simpl.
  destruct (Nat.ltb_spec maxD (depth h)).
  { rewrite step_skip by done. apply IH. }
  destruct (Nat.eqb_spec (depth h) (currentDepth st)) as [Heq|Hne].
  { rewrite step_same by lia. rewrite IH. simpl. by rewrite Heq. }
  destruct (Nat.ltb_spec (currentDepth st) (depth h)).
  { rewrite step_deeper by lia. simpl. rewrite IH. simpl. by rewrite length_app, Nat.add_1_r. }
  rewrite step_shallower by lia.
  pose proof (popParents_spec (currentDepth st - depth h) (parents st) (currentParent st)) as Hp.
  destruct (popParents _ _ _) as [[ps cur]|] eqn:Hpop.
  - rewrite IH. simpl. apply popParents_length in Hpop. rewrite Hpop.
    destruct Hp as (_ & Hn & _).
    destruct (Nat.leb_spec (length (parents st)) (currentDepth st - depth h)); [lia|done].
  - simpl. destruct (Nat.leb_spec (length (parents st)) (currentDepth st - depth h)); [done|lia].
Qed.

Lemma buildToc_underflows maxD ord first rest :
  isOk (buildToc maxD ord (first :: rest))
  = negb (underflows maxD (depth first) 1 (map depth (first :: rest))).
Proof.
  pose proof (run_underflows maxD ord (first :: rest) (initState ord first)) as Hrun.
  simpl in Hrun |- *. rewrite <- Hrun. unfold buildToc. simpl.
  by destruct (step maxD ord (initState ord first) first) as [st|];
    [destruct (run maxD ord st rest)|].
Qed.

Lemma stepwise_underflows maxD base ds : ∀ cur frames,
  base ≤ cur → frames = S (cur - base) →
  stepwise maxD base cur ds = true → underflows maxD cur frames ds = false.
Proof.
  induction ds as [|d ds IH]; intros cur frames Hbase Hframes; [done|]. simpl.
  destruct (Nat.ltb_spec maxD d); [by apply IH|].
  rewrite !andb_true_iff, !Nat.leb_le. intros [[Hd1 Hd2] Hrest].
  destruct (Nat.eqb_spec d cur) as [->|Hne]; [by apply IH|].
  destruct (Nat.ltb_spec cur d).
  - apply IH; [lia | lia | done].
  - apply orb_false_iff. split.
    + apply Nat.leb_gt. lia.
    + apply IH; [lia | lia | done].
Qed.

Lemma underflows_first_over_deep maxD cur ds :
  maxD < cur → Exists (λ d, d ≤ maxD) ds → underflows maxD cur 1 ds = true.
Proof.
  intros Hcur. induction ds as [|d ds IH]; intros Hex; [by apply Exists_nil in Hex|].
  simpl. destruct (Nat.ltb_spec maxD d).
  - apply IH. apply Exists_cons in Hex as [Hd|Hex]; [lia | done].
  - destruct (Nat.eqb_spec d cur); [lia|]. destruct (Nat.ltb_spec cur d); [lia|].
    destruct (cur - d) eqn:Hd; [lia | done].
Qed.

(** When the first heading is over-deep, any heading that takes part makes
    the build throw: [currentDepth] starts at [headings[0].depth]. *)
Lemma buildToc_first_over_deep maxD ord first rest :
  maxD < depth first → Exists (eligible maxD) rest →
  buildToc maxD ord (first :: rest) = ParentNodeNotFound.
Proof.
  intros Hfirst Hex.
  pose proof (buildToc_underflows maxD ord first rest) as Hb.
  rewrite underflows_first_over_deep in Hb.
  - by destruct (buildToc maxD ord (first :: rest)).
  - done.
  - simpl. apply Exists_cons. right. apply Exists_fmap.
    eapply Exists_impl; [exact Hex|]. unfold eligible. simpl. lia.
Qed.

(** ** The outline builder: the claims *)

(** C1 (as the code has it): on a deeper transition the new nested list,
    holding the heading's item, is pushed onto the children of the current
    list itself, after the items already there (which stay as they were); it
    becomes the current parent and the top of [parents].  So for headings of
    depths 1, 2, 1 the outline has three children: the first item, the
    nested list with the second item, and the third item. *)
Theorem deeper_list_pushed_as_sibling :
  (∀ maxD ord st h tag props cs,
     nodeAt (currentParent st) (toc st) = Some (Element tag props cs) →
     depth h ≤ maxD → currentDepth st < depth h →
     ∃ st', step maxD ord st h = Ok st' ∧
       nodeAt (currentParent st) (toc st')
         = Some (Element tag props (cs ++ [Element (listTag ord) ∅ [li h]])) ∧
       currentParent st' = currentParent st ++ [length cs] ∧
       nodeAt (currentParent st') (toc st') = Some (Element (listTag ord) ∅ [li h]) ∧
       parents st' = parents st ++ [currentParent st'] ∧
       currentDepth st' = depth h) ∧
  (∀ ord a b c,
     depth a = 1 → depth b = 2 → depth c = 1 →
     buildToc 3 ord [a; b; c]
     = Ok (Element (listTag ord) ∅ [li a; Element (listTag ord) ∅ [li b]; li c])).
Proof.
  split.
  - intros maxD ord st h tag props cs Hn Hmax Hdeep.
    rewrite step_deeper by done. simpl. eexists. split; [done|]. simpl.
    unfold childrenAt. rewrite Hn. simpl.
    split; [by apply nodeAt_pushChild_same|]. split; [done|].
    split; [by eapply nodeAt_pushChild_new|]. done.
  - intros ord [da sa ta] [db sb tb] [dc sc tc]. simpl. intros -> -> ->. done.
Qed.

Lemma deeper_list_pushed_as_sibling_witness :
  ∃ st',
    step 3 false
      {| toc := Element "ul" ∅ [li (mkHeading 1 "a" "A")]; currentDepth := 1;
         currentParent := []; parents := [[]] |}
      (mkHeading 2 "b" "B") = Ok st' ∧
    nodeAt [] (toc st')
      = Some (Element "ul" ∅ ([li (mkHeading 1 "a" "A")]
                              ++ [Element "ul" ∅ [li (mkHeading 2 "b" "B")]])) ∧
    currentParent st' = [] ++ [1] ∧
    nodeAt (currentParent st') (toc st') = Some (Element "ul" ∅ [li (mkHeading 2 "b" "B")]) ∧
    parents st' = [[]] ++ [currentParent st'] ∧
    currentDepth st' = 2.
Proof.
  apply (proj1 deeper_list_pushed_as_sibling 3 false
           {| toc := Element "ul" ∅ [li (mkHeading 1 "a" "A")]; currentDepth := 1;
              currentParent := []; parents := [[]] |}
           (mkHeading 2 "b" "B") "ul" ∅ [li (mkHeading 1 "a" "A")]).
  - reflexivity.
  - simpl. lia.
  - simpl. lia.
Defined.

(** C1, the claim as stated fails: the outline of [(1,A),(2,B),(1,C)] has
    three children, not two, and the item of A holds its link only. *)
Lemma nested_list_not_inside_item :
  ∃ t, buildToc 3 false [mkHeading 1 "a" "A"; mkHeading 2 "b" "B"; mkHeading 1 "c" "C"] = Ok t ∧
       length (childrenOf t) = 3 ∧
       childrenOf t !! 0 = Some (Element "li" ∅ [Element "a" {["href" := "#a"]} [Text "A"]]) ∧
       childrenOf t !! 1 = Some (Element "ul" ∅ [li (mkHeading 2 "b" "B")]).
Proof. eexists. split; [reflexivity|]. by repeat split. Qed.

(** C2 (as the code has it): the first heading opens the root at its own
    depth and is pushed onto the root list; a second heading that takes part
    and is shallower than the first asks for a pop, which empties [parents]
    (the root is its only entry), and the build throws. *)
Theorem shallower_second_heading_throws maxD ord h1 h2 :
  depth h1 ≤ maxD → depth h2 < depth h1 →
  run maxD ord (initState ord h1) [h1]
    = Ok {| toc := Element (listTag ord) ∅ [li h1]; currentDepth := depth h1;
            currentParent := []; parents := [[]] |} ∧
  buildToc maxD ord [h1; h2] = ParentNodeNotFound.
Proof.
  intros Hmax Hlt.
  assert (run maxD ord (initState ord h1) [h1]
    = Ok {| toc := Element (listTag ord) ∅ [li h1]; currentDepth := depth h1;
            currentParent := []; parents := [[]] |}) as Hfirst.
  { simpl. by rewrite step_same by done. }
  split; [done|].
  unfold buildToc. simpl in Hfirst |- *.
  destruct (step maxD ord (initState ord h1) h1) as [st|]; [|done].
  injection Hfirst as ->. rewrite step_shallower by (simpl; lia). simpl.
  destruct (depth h1 - depth h2) eqn:Hd; [lia | done].
Qed.

Lemma shallower_second_heading_throws_witness :
  run 3 false (initState false (mkHeading 2 "x" "X")) [mkHeading 2 "x" "X"]
    = Ok {| toc := Element "ul" ∅ [li (mkHeading 2 "x" "X")]; currentDepth := 2;
            currentParent := []; parents := [[]] |} ∧
  buildToc 3 false [mkHeading 2 "x" "X"; mkHeading 1 "y" "Y"] = ParentNodeNotFound.
Proof.
  apply (shallower_second_heading_throws 3 false (mkHeading 2 "x" "X") (mkHeading 1 "y" "Y")).
  - simpl. lia.
  - simpl. lia.
Defined.

(** C2, the claim as stated fails: the build of [(2,X),(1,Y)] throws. *)
Lemma h2_then_h1_throws :
  isOk (buildToc 3 false [mkHeading 2 "x" "X"; mkHeading 1 "y" "Y"]) = false.
Proof. reflexivity. Qed.

(** C3, the code at a failing input: with [maxDepth] 3 the over-deep first
    heading [(4,D)] sets the starting depth, so the build of [(4,D),(1,A)]
    throws, while the same headings without the over-deep one build the list
    with the single item A. *)
Theorem first_heading_over_maxDepth_throws :
  buildToc 3 false [mkHeading 4 "d" "D"; mkHeading 1 "a" "A"] = ParentNodeNotFound ∧
  buildToc 3 false (filter (eligible 3) [mkHeading 4 "d" "D"; mkHeading 1 "a" "A"])
    = Ok (Element "ul" ∅ [li (mkHeading 1 "a" "A")]).
Proof. split; reflexivity. Qed.

(** C4 (as the code has it): no heading gives an empty list; the build
    throws exactly when, at a heading that takes part and is shallower than
    [currentDepth], the number of pops [currentDepth - depth] reaches the
    height of [parents]; whether that happens is decided by the depths alone
    ([underflows]); and it never happens when no heading goes above the
    first one and every deeper heading is one level deeper. *)
Theorem build_failure_characterised maxD ord :
  buildToc maxD ord [] = Ok (emptyToc ord) ∧
  (∀ st h, step maxD ord st h = ParentNodeNotFound ↔
           depth h ≤ maxD ∧ depth h < currentDepth st ∧
           length (parents st) ≤ currentDepth st - depth h) ∧
  (∀ first rest,
     buildToc maxD ord (first :: rest) = ParentNodeNotFound ↔
     underflows maxD (depth first) 1 (map depth (first :: rest)) = true) ∧
  (∀ first rest,
     stepwise maxD (depth first) (depth first) (map depth (first :: rest)) = true →
     isOk (buildToc maxD ord (first :: rest)) = true).
Proof.
  split; [done|]. split; [apply step_throws|]. split.
  - intros first rest. pose proof (buildToc_underflows maxD ord first rest) as Hb.
    destruct (buildToc maxD ord (first :: rest)), (underflows _ _ _ _); simpl in Hb; done.
  - intros first rest Hsw. rewrite buildToc_underflows.
    rewrite (stepwise_underflows maxD (depth first)); [done | lia | | done].
    by rewrite Nat.sub_diag.
Qed.

Lemma build_failure_characterised_witness :
  (buildToc 4 false [mkHeading 1 "a" "A"; mkHeading 4 "b" "B"; mkHeading 2 "c" "C"]
     = ParentNodeNotFound) ∧
  isOk (buildToc 3 false [mkHeading 1 "a" "A"; mkHeading 2 "b" "B"; mkHeading 3 "c" "C";
                          mkHeading 2 "d" "D"; mkHeading 1 "e" "E"]) = true.
Proof.
  split.
  - apply (proj1 (proj2 (proj2 (build_failure_characterised 4 false)))). reflexivity.
  - apply (proj2 (proj2 (proj2 (build_failure_characterised 3 false)))). reflexivity.
Defined.

(** C4, the claim as stated fails: depths 1, 4, 2 with [maxDepth] 4 throw,
    and so do depths 1, 3, 1 with the default [maxDepth]. *)
Lemma gap_then_return_throws :
  buildToc 4 false [mkHeading 1 "a" "A"; mkHeading 4 "b" "B"; mkHeading 2 "c" "C"]
    = ParentNodeNotFound ∧
  buildToc 3 false [mkHeading 1 "a" "A"; mkHeading 3 "b" "B"; mkHeading 1 "c" "C"]
    = ParentNodeNotFound.
Proof. split; reflexivity. Qed.

(** C7: for headings of depths 1, 2, 3, 2, 1 and [maxDepth] 3 the build
    succeeds and flattening the outline gives back 1, 2, 3, 2, 1. *)
Theorem flatten_roundtrip_12321 ord hs :
  map depth hs = [1; 2; 3; 2; 1] →
  ∃ t, buildToc 3 ord hs = Ok t ∧ flattenDepths 0 t = [1; 2; 3; 2; 1].
Proof.
  intros Hd.
  destruct hs as [|[d1 s1 t1] [|[d2 s2 t2] [|[d3 s3 t3] [|[d4 s4 t4] [|[d5 s5 t5] [|? ?]]]]]];
    try discriminate Hd.
  simpl in Hd. injection Hd as -> -> -> -> ->.
  eexists. split; [reflexivity|]. by destruct ord.
Qed.

Lemma flatten_roundtrip_12321_witness :
  ∃ t, buildToc 3 false [mkHeading 1 "a" "A"; mkHeading 2 "b" "B"; mkHeading 3 "c" "C";
                         mkHeading 2 "d" "D"; mkHeading 1 "e" "E"] = Ok t ∧
       flattenDepths 0 t = [1; 2; 3; 2; 1].
Proof.
  apply (flatten_roundtrip_12321 false
           [mkHeading 1 "a" "A"; mkHeading 2 "b" "B"; mkHeading 3 "c" "C";
            mkHeading 2 "d" "D"; mkHeading 1 "e" "E"]).
  reflexivity.
Defined.

(** ** The slug generator *)

Lemma candidate_ne_original o n : candidate o n ≠ o.
Proof.
  unfold candidate. intros Heq.
  assert (o +:+ "-" +:+ pretty n = o +:+ "") as Heq'.
  { rewrite Heq. clear. induction o as [|a o IH]; [done|].
    change (String a o = String a (o +:+ "")). by f_equal. }
  apply (inj (String.app o)) in Heq'. done.
Qed.

Lemma candidate_ne_empty o n : candidate o n ≠ "".
Proof. unfold candidate. destruct o; done. Qed.

Lemma candidate_inj o m n : candidate o m = candidate o n → m = n.
Proof.
  unfold candidate. intros Heq. apply (inj (String.app o)) in Heq.
  apply (inj (String.app "-")) in Heq. by apply (inj pretty) in Heq.
Qed.

Lemma slugLoop_free fuel occ o r : occ !! r = None → slugLoop fuel occ o r = Some (r, occ).
Proof. intros Hr. destruct fuel; simpl; by rewrite Hr. Qed.

(** What the loop returns is not a key, keys are never lost, and the result
    is the starting candidate (map untouched) or a numbered candidate. *)
Lemma slugLoop_spec fuel : ∀ occ o r res occ',
  slugLoop fuel occ o r = Some (res, occ') →
  occ' !! res = None ∧ dom occ ⊆ dom occ' ∧
  ((res = r ∧ occ' = occ) ∨ ∃ n, res = candidate o n).
Proof.
  induction fuel as [|fuel IH]; intros occ o r res occ'; simpl.
  - destruct (occ !! r) eqn:Hr; [done|]. intros [= <- <-]. by auto.
  - destruct (occ !! r) eqn:Hr.
    + intros Hloop. apply IH in Hloop as (Hfree & Hdom & Hres). split; [done|]. split.
      * etrans; [|exact Hdom]. rewrite dom_insert_L. set_solver.
      * right. destruct Hres as [[-> _]|Hres]; [by eexists | done].
    + intros [= <- <-]. by auto.
Qed.

Lemma slugLoop_total_numbered fuel : ∀ (occ : gmap string nat) o n (tried : gset string),
  occ !! o = Some n →
  tried ⊆ dom occ →
  (∀ x, x ∈ tried → x = o ∨ ∃ k, k < n ∧ x = candidate o k) →
  size (dom occ) ≤ fuel + size tried →
  is_Some (slugLoop fuel occ o (candidate o n)).
Proof.
  induction fuel as [|fuel IH]; intros occ o n tried Ho Hsub Htried Hsize.
  all: destruct (occ !! candidate o n) as [c|] eqn:Hc;
    [|rewrite slugLoop_free by done; by eexists].
  all: assert (candidate o n ∉ tried) as Hnew by
    (intros [Heq|(k & Hk & Heq)]%Htried;
     [by apply candidate_ne_original in Heq | apply candidate_inj in Heq; lia]).
  - assert (tried = dom occ) as -> by (apply set_subseteq_size_eq; [done | lia]).
    exfalso. apply Hnew. apply elem_of_dom. by eexists.
  - simpl. rewrite Hc, Ho. simpl.
    apply (IH _ _ _ (tried ∪ {[candidate o n]})).
    + by rewrite lookup_insert_eq.
    + rewrite dom_insert_L. apply union_subseteq. split; [set_solver|].
      apply singleton_subseteq_l. apply elem_of_union_r, elem_of_dom. by eexists.
    + intros x [Hx|Hx%elem_of_singleton]%elem_of_union.
      * apply Htried in Hx as [->|(k & Hk & ->)]; [by left|]. right. exists k. split; [lia|done].
      * right. exists n. split; [lia|done].
    + rewrite dom_insert_lookup_L by (by eexists).
      rewrite size_union by set_solver. rewrite size_singleton. lia.
Qed.

(** The loop ends within [size occ] iterations: the candidates it tries are
    pairwise different keys. *)
Lemma slugLoop_total (occ : gmap string nat) o : is_Some (slugLoop (size occ) occ o o).
Proof.
  destruct (occ !! o) as [n|] eqn:Ho; [|rewrite slugLoop_free by done; by eexists].
  destruct (size occ) as [|fuel] eqn:Hsize.
  { apply map_size_empty_inv in Hsize. subst occ. done. }
  simpl. rewrite Ho. simpl.
  apply (slugLoop_total_numbered _ _ _ _ {[o]}).
  - by rewrite lookup_insert_eq.
  - rewrite dom_insert_L. set_solver.
  - intros x ->%elem_of_singleton. by left.
  - rewrite dom_insert_lookup_L by (by eexists).
    rewrite size_dom, Hsize, size_singleton. lia.
Qed.

Section SluggerFacts.

Variable slugify : string → string.

Lemma sluggerSlug_spec occ v res occ' :
  sluggerSlug slugify occ v = (res, occ') →
  occ !! res = None ∧ res ∈ dom occ' ∧ dom occ ⊆ dom occ' ∧
  (res = "" → slugify v = "" ∧ occ !! "" = None).
Proof.
  unfold sluggerSlug.
  destruct (slugLoop_total occ (slugify v)) as [[r occ1] Hloop]. rewrite Hloop.
  intros [= <- <-]. apply slugLoop_spec in Hloop as (Hfree & Hdom & Hres).
  split; [|split; [|split]].
  - apply not_elem_of_dom. intros Hin. apply Hdom in Hin. by apply not_elem_of_dom in Hfree.
  - rewrite dom_insert_L. set_solver.
  - rewrite dom_insert_L. set_solver.
  - intros ->. destruct Hres as [[Hr ->]|[n Hn]].
    + by rewrite <- Hr.
    + symmetry in Hn. by apply candidate_ne_empty in Hn.
Qed.

Lemma sluggerSlug_fresh_slugger v :
  sluggerSlug slugify ∅ v = (slugify v, {[slugify v := 0]}).
Proof. unfold sluggerSlug. rewrite slugLoop_free by done. done. Qed.

End SluggerFacts.

(** ** Induction on trees *)

Lemma Node_nested_ind (P : Node → Prop) :
  (∀ tag props cs, Forall P cs → P (Element tag props cs)) →
  (∀ v, P (Text v)) → (∀ v, P (Comment v)) → P Doctype →
  ∀ n, P n.
Proof.
  intros HE HT HC HD.
  fix IH 1. intros [tag props cs|v|v|]; [|apply HT|apply HC|apply HD].
  apply HE. induction cs as [|c cs IHcs]; constructor; [apply IH | apply IHcs].
Qed.

(** ** Identifier resolution *)

Section CollectionFacts.

Variable toText : Node → string.
Variable trim : string → string.
Variable slugify : string → string.

Local Abbreviation visit := (visitNode toText trim slugify).
Local Abbreviation visitAll := (visitList (visitNode toText trim slugify)).

Lemma resolveId_spec existing txt occ slg occ' :
  resolveId slugify existing txt occ = (slg, occ') →
  dom occ ⊆ dom occ' ∧
  ((¬ lacksId existing ∧ existing = Some slg ∧ occ' = occ) ∨
   (lacksId existing ∧ sluggerSlug slugify occ txt = (slg, occ'))).
Proof.
  unfold resolveId, lacksId. destruct existing as [s|].
  - destruct (decide (s = "")) as [->|Hs].
    + intros Hslug. split; [by apply sluggerSlug_spec in Hslug as (_ & _ & ? & _)|].
      right. by auto.
    + intros [= <- <-]. split; [done|]. left. split; [|done]. intros [?|[= ?]]; done.
  - intros Hslug. split; [by apply sluggerSlug_spec in Hslug as (_ & _ & ? & _)|].
    right. by auto.
Qed.

Lemma visitList_nil occ : visitAll [] occ = ([], occ, []).
Proof. done. Qed.

Lemma visitList_cons c cs occ :
  visitAll (c :: cs) occ =
    let '(c', occ1, hs1) := visit c occ in
    let '(cs', occ2, hs2) := visitAll cs occ1 in
    (c' :: cs', occ2, hs1 ++ hs2).
Proof. done. Qed.

Lemma visitNode_element tag props cs occ :
  visit (Element tag props cs) occ =
    match headingDepth tag with
    | Some d =>
        let '(props', occ1, h) := visitHeading toText trim slugify d tag props cs occ in
        let '(cs', occ2, hs) := visitAll cs occ1 in
        (Element tag props' cs', occ2, h :: hs)
    | None =>
        let '(cs', occ2, hs) := visitAll cs occ in
        (Element tag props cs', occ2, hs)
    end.
Proof. done. Qed.

(** *** The walk only writes the [id] of heading elements *)

Lemma visitNode_frame n : ∀ occ, stripHeadingIds (visit n occ).1.1 = stripHeadingIds n.
Proof.
  induction n as [tag props cs IH|v|v|] using Node_nested_ind; intros occ; try done.
  assert (∀ occ0, map stripHeadingIds (visitAll cs occ0).1.1 = map stripHeadingIds cs) as Hcs.
  { induction IH as [|c cs Hc _ IHcs]; intros occ0; [done|].
    rewrite visitList_cons. specialize (Hc occ0).
    destruct (visit c occ0) as [[c' occ1] hs1]. specialize (IHcs occ1).
    destruct (visitAll cs occ1) as [[cs' occ2] hs2]. simpl in *. by rewrite Hc, IHcs. }
  rewrite visitNode_element. simpl. destruct (headingDepth tag) as [d|] eqn:Hd.
  - unfold visitHeading.
    destruct (resolveId _ _ _ _) as [slg occ1]. specialize (Hcs occ1).
    destruct (visitAll cs occ1) as [[cs' occ2] hs]. simpl in *.
    rewrite Hd, Hcs. by rewrite delete_insert_eq.
  - specialize (Hcs occ). destruct (visitAll cs occ) as [[cs' occ2] hs]. simpl in *.
    by rewrite Hd, Hcs.
Qed.

Lemma visitList_frame cs occ :
  map stripHeadingIds (visitAll cs occ).1.1 = map stripHeadingIds cs.
Proof.
  revert occ. induction cs as [|c cs IH]; intros occ; [done|].
  rewrite visitList_cons. pose proof (visitNode_frame c occ) as Hc.
  destruct (visit c occ) as [[c' occ1] hs1]. specialize (IH occ1).
  destruct (visitAll cs occ1) as [[cs' occ2] hs2]. simpl in *. by rewrite Hc, IH.
Qed.

Lemma visitNode_headingsHaveId n : ∀ occ, headingsHaveId (visit n occ).1.1 = true.
Proof.
  induction n as [tag props cs IH|v|v|] using Node_nested_ind; intros occ; try done.
  assert (∀ occ0, forallb headingsHaveId (visitAll cs occ0).1.1 = true) as Hcs.
  { induction IH as [|c cs Hc _ IHcs]; intros occ0; [done|].
    rewrite visitList_cons. specialize (Hc occ0).
    destruct (visit c occ0) as [[c' occ1] hs1]. specialize (IHcs occ1).
    destruct (visitAll cs occ1) as [[cs' occ2] hs2]. simpl in *. by rewrite Hc, IHcs. }
  rewrite visitNode_element. destruct (headingDepth tag) as [d|] eqn:Hd.
  - unfold visitHeading.
    destruct (resolveId _ _ _ _) as [slg occ1]. specialize (Hcs occ1).
    destruct (visitAll cs occ1) as [[cs' occ2] hs]. simpl in *.
    rewrite Hd, Hcs, lookup_insert_eq. rewrite bool_decide_eq_true_2 by (by eexists). done.
  - specialize (Hcs occ). destruct (visitAll cs occ) as [[cs' occ2] hs]. simpl in *.
    by rewrite Hd, Hcs.
Qed.

Lemma visitList_headingsHaveId cs occ : forallb headingsHaveId (visitAll cs occ).1.1 = true.
Proof.
  revert occ. induction cs as [|c cs IH]; intros occ; [done|].
  rewrite visitList_cons. pose proof (visitNode_headingsHaveId c occ) as Hc.
  destruct (visit c occ) as [[c' occ1] hs1]. specialize (IH occ1).
  destruct (visitAll cs occ1) as [[cs' occ2] hs2]. simpl in *. by rewrite Hc, IH.
Qed.

(** *** A second walk over the tree of the first *)

Hypothesis toText_ignores_heading_ids : ∀ n, toText (stripHeadingIds n) = toText n.

Lemma sluggerAgain_mono occ1 occ1' occ2 :
  dom occ1 ⊆ dom occ1' → sluggerAgain occ1 occ2 → sluggerAgain occ1' occ2.
Proof. intros Hdom [->|[-> Hin]]; [by left | right; split; [done | by apply Hdom]]. Qed.

Lemma visitHeading_again d tag props cs cs' occ1 occ2 props' occA h :
  sluggerAgain occ1 occ2 →
  map stripHeadingIds cs' = map stripHeadingIds cs →
  headingDepth tag = Some d →
  visitHeading toText trim slugify d tag props cs occ1 = (props', occA, h) →
  ∃ occB, visitHeading toText trim slugify d tag props' cs' occ2 = (props', occB, h) ∧
          sluggerAgain occA occB.
Proof.
  intros Hagain Hcs Hd. unfold visitHeading.
  set (txt := trim (toText (Element tag props cs))).
  destruct (resolveId slugify (props !! "id") txt occ1) as [slg occ] eqn:Hres.
  intros [= <- <- <-].
  assert (trim (toText (Element tag (<["id" := slg]> props) cs')) = txt) as ->.
  { unfold txt. f_equal.
    rewrite <- (toText_ignores_heading_ids (Element tag (<["id" := slg]> props) cs')).
    rewrite <- (toText_ignores_heading_ids (Element tag props cs)).
    simpl. by rewrite Hd, Hcs, delete_insert_eq. }
  rewrite lookup_insert_eq.
  apply resolveId_spec in Hres as [Hdom Hres]. unfold resolveId.
  destruct (decide (slg = "")) as [->|Hslg].
  - destruct Hres as [(Hno & Hex & _)|[_ Hslug]].
    { exfalso. apply Hno. by right. }
    apply sluggerSlug_spec in Hslug as (_ & Hin & _ & Hempty).
    destruct (Hempty eq_refl) as [Htxt Hfree].
    destruct Hagain as [->|[_ Hin1]].
    + rewrite sluggerSlug_fresh_slugger, Htxt, insert_insert_eq.
      eexists. split; [done|]. by right.
    + apply elem_of_dom in Hin1 as [? Hin1]. by rewrite Hin1 in Hfree.
  - rewrite insert_insert_eq. eexists. split; [done|]. by eapply sluggerAgain_mono.
Qed.

Lemma visitNode_again n : ∀ occ1 occ2 n' occ1' hs,
  sluggerAgain occ1 occ2 → visit n occ1 = (n', occ1', hs) →
  ∃ occ2', visit n' occ2 = (n', occ2', hs) ∧ sluggerAgain occ1' occ2'.
Proof.
  induction n as [tag props cs IH|v|v|] using Node_nested_ind;
    intros occ1 occ2 n' occ1' hs Hagain; simpl;
    try (intros [= <- <- <-]; by exists occ2).
  assert (∀ o1 o2 cs' o1' hs', sluggerAgain o1 o2 → visitAll cs o1 = (cs', o1', hs') →
            ∃ o2', visitAll cs' o2 = (cs', o2', hs') ∧ sluggerAgain o1' o2') as Hcs.
  { clear Hagain. induction IH as [|c cs Hc _ IHcs]; intros o1 o2 cs' o1' hs' Hagain.
    - intros [= <- <- <-]. by exists o2.
    - rewrite visitList_cons.
      destruct (visit c o1) as [[c1 oa] ha] eqn:Hvc.
      destruct (visitAll cs oa) as [[cs1 ob] hb] eqn:Hvcs. intros [= <- <- <-].
      destruct (Hc _ _ _ _ _ Hagain Hvc) as (oa2 & Hvc2 & Hagain2).
      destruct (IHcs _ _ _ _ _ Hagain2 Hvcs) as (ob2 & Hvcs2 & Hagain3).
      exists ob2. rewrite visitList_cons, Hvc2, Hvcs2. done. }
  fold visit. destruct (headingDepth tag) as [d|] eqn:Hd.
  - destruct (visitHeading toText trim slugify d tag props cs occ1)
      as [[props' occA] h] eqn:Hvh.
    destruct (visitAll cs occA) as [[cs' occB] hs'] eqn:Hvcs. intros [= <- <- <-].
    assert (map stripHeadingIds cs' = map stripHeadingIds cs) as Hframe.
    { pose proof (visitList_frame cs occA) as Hf. by rewrite Hvcs in Hf. }
    destruct (visitHeading_again _ _ _ _ _ _ _ _ _ _ Hagain Hframe Hd Hvh)
      as (occA2 & Hvh2 & Hagain2).
    destruct (Hcs _ _ _ _ _ Hagain2 Hvcs) as (occB2 & Hvcs2 & Hagain3).
    exists occB2. rewrite visitNode_element, Hd, Hvh2, Hvcs2. done.
  - destruct (visitAll cs occ1) as [[cs' occB] hs'] eqn:Hvcs. intros [= <- <- <-].
    destruct (Hcs _ _ _ _ _ Hagain Hvcs) as (occB2 & Hvcs2 & Hagain3).
    exists occB2. rewrite visitNode_element, Hd, Hvcs2. done.
Qed.

Lemma visitList_again cs : ∀ occ1 occ2 cs' occ1' hs,
  sluggerAgain occ1 occ2 → visitAll cs occ1 = (cs', occ1', hs) →
  ∃ occ2', visitAll cs' occ2 = (cs', occ2', hs) ∧ sluggerAgain occ1' occ2'.
Proof.
  induction cs as [|c cs IH]; intros occ1 occ2 cs' occ1' hs Hagain.
  - intros [= <- <- <-]. by exists occ2.
  - rewrite visitList_cons.
    destruct (visit c occ1) as [[c1 oa] ha] eqn:Hvc.
    destruct (visitAll cs oa) as [[cs1 ob] hb] eqn:Hvcs. intros [= <- <- <-].
    destruct (visitNode_again _ _ _ _ _ _ Hagain Hvc) as (oa2 & Hvc2 & Hagain2).
    destruct (IH _ _ _ _ _ Hagain2 Hvcs) as (ob2 & Hvcs2 & Hagain3).
    exists ob2. rewrite visitList_cons, Hvc2, Hvcs2. done.
Qed.

Lemma collectHeadings_again tree tree' hs :
  collectHeadings toText trim slugify tree = (tree', hs) →
  collectHeadings toText trim slugify tree' = (tree', hs).
Proof.
  unfold collectHeadings.
  destruct (visitAll (rootChildren tree) ∅) as [[cs occ] hs0] eqn:Hv. intros [= <- <-].
  destruct (visitList_again _ _ ∅ _ _ _ (or_introl eq_refl) Hv) as (occ2 & Hv2 & _).
  simpl. by rewrite Hv2.
Qed.

End CollectionFacts.

(** ** The walk of the placement *)

Section PlacementFacts.

Variable trim : string → string.
Variable toLowerCase : string → string.
Variable tocNodes : list Node.

Local Abbreviation marker := (isMarker trim toLowerCase).
Local Abbreviation walkFrom := (walk trim toLowerCase).
Local Abbreviation walks := (walksTo trim toLowerCase tocNodes).
Local Abbreviation marked := (hasMarker trim toLowerCase).
Local Abbreviation replaced := (replaceMarkers trim toLowerCase tocNodes).
Local Abbreviation replacedChildren := (replacedChildren trim toLowerCase tocNodes).

Lemma walk_fuel_mono fuel : ∀ fuel' isP ins cs offset r,
  fuel ≤ fuel' → walkFrom fuel tocNodes isP ins cs offset = Some r →
  walkFrom fuel' tocNodes isP ins cs offset = Some r.
Proof.
  induction fuel as [|fuel IH]; intros fuel' isP ins cs offset r Hle; [done|].
  destruct fuel' as [|fuel']; [lia|]. simpl.
  destruct (cs !! offset) as [[tag props es|v|v|]|]; try done.
  - destruct (walkFrom fuel tocNodes (bool_decide (tag = "p")) ins es 0)
      as [[[es' ins'] rep]|] eqn:Hes; [|done].
    rewrite (IH fuel' _ _ _ _ _ ltac:(lia) Hes).
    destruct rep; apply IH; lia.
  - apply IH. lia.
  - destruct (marker v); [|apply IH; lia].
    destruct (isP && (length cs =? 1)); [done | apply IH; lia].
  - apply IH. lia.
Qed.

Lemma walks_end isP ins cs offset :
  cs !! offset = None → walks isP ins cs offset (cs, ins, false).
Proof. intros Hnone. exists 1. intros [|fuel] ?; [lia|]. simpl. by rewrite Hnone. Qed.

Lemma walks_next isP ins cs offset c r :
  cs !! offset = Some c →
  match c with
  | Element _ _ _ => False
  | Comment v => marker v = false
  | _ => True
  end →
  walks isP ins cs (S offset) r → walks isP ins cs offset r.
Proof.
  intros Hc Hkind [fuel0 Hw]. exists (S fuel0). intros [|fuel] ?; [lia|]. simpl. rewrite Hc.
  destruct c as [tag props es|v|v|]; [done|..]; try (apply Hw; lia).
  rewrite Hkind. apply Hw. lia.
Qed.

Lemma walks_marker isP ins cs offset v r :
  cs !! offset = Some (Comment v) → marker v = true →
  isP && (length cs =? 1) = false →
  walks isP true (splice offset tocNodes cs) (S offset) r → walks isP ins cs offset r.
Proof.
  intros Hc Hv Hp [fuel0 Hw]. exists (S fuel0). intros [|fuel] ?; [lia|]. simpl.
  rewrite Hc, Hv, Hp. apply Hw. lia.
Qed.

Lemma walks_marker_paragraph ins cs offset v :
  cs !! offset = Some (Comment v) → marker v = true → length cs = 1 →
  walks true ins cs offset (cs, true, true).
Proof.
  intros Hc Hv Hlen. exists 1. intros [|fuel] ?; [lia|]. simpl.
  by rewrite Hc, Hv, Hlen.
Qed.

Lemma walks_element isP ins cs offset tag props es es' ins' rep r :
  cs !! offset = Some (Element tag props es) →
  walks (bool_decide (tag = "p")) ins es 0 (es', ins', rep) →
  walks isP ins' (if rep then splice offset tocNodes cs
                  else <[offset := Element tag props es']> cs) (S offset) r →
  walks isP ins cs offset r.
Proof.
  intros Hc [fuel1 Hw1] [fuel2 Hw2]. exists (S (fuel1 `max` fuel2)).
  intros [|fuel] ?; [lia|]. simpl. rewrite Hc, Hw1 by lia.
  destruct rep; apply Hw2; lia.
Qed.

(** *** Nodes without a marker are walked over unchanged *)

Lemma walks_clean_list cs :
  Forall (λ c, marked c = false →
               ∀ isP ins, walks isP ins (childrenOf c) 0 (childrenOf c, ins, false)) cs →
  existsb marked cs = false →
  ∀ pre post isP ins r,
    walks isP ins (pre ++ cs ++ post) (length pre + length cs) r →
    walks isP ins (pre ++ cs ++ post) (length pre) r.
Proof.
  induction 1 as [|c cs Hc _ IH]; intros Hclean pre post isP ins r Hw.
  { by rewrite Nat.add_0_r in Hw. }
  simpl in Hclean. apply orb_false_iff in Hclean as [Hcm Hcsm].
  assert (pre ++ (c :: cs) ++ post = (pre ++ [c]) ++ cs ++ post) as Hlist
    by (by rewrite <- app_assoc).
  assert ((pre ++ (c :: cs) ++ post) !! length pre = Some c) as Hlook.
  { rewrite lookup_app_r, Nat.sub_diag by lia. done. }
  assert (walks isP ins (pre ++ (c :: cs) ++ post) (S (length pre)) r) as Hrest.
  { rewrite Hlist. replace (S (length pre)) with (length (pre ++ [c]))
      by (rewrite length_app; simpl; lia).
    apply IH; [done|]. rewrite <- Hlist, length_app. simpl.
    replace (length pre + 1 + length cs) with (length pre + S (length cs)) by lia. done. }
  destruct c as [tag props es|v|v|].
  - eapply walks_element; [exact Hlook | apply (Hc Hcm) |]. simpl.
    by rewrite list_insert_id.
  - by eapply walks_next.
  - by eapply walks_next.
  - by eapply walks_next.
Qed.

Lemma walks_clean_node n :
  marked n = false → ∀ isP ins, walks isP ins (childrenOf n) 0 (childrenOf n, ins, false).
Proof.
  induction n as [tag props cs IH|v|v|] using Node_nested_ind; intros Hclean isP ins;
    try (by apply walks_end).
  simpl in *.
  pose proof (walks_clean_list cs IH Hclean [] [] isP ins (cs, ins, false)) as Hw.
  rewrite app_nil_r in Hw. simpl in Hw. apply Hw. apply walks_end.
  by apply lookup_ge_None_2.
Qed.

Lemma walks_clean cs pre post isP ins r :
  existsb marked cs = false →
  walks isP ins (pre ++ cs ++ post) (length pre + length cs) r →
  walks isP ins (pre ++ cs ++ post) (length pre) r.
Proof.
  intros Hclean. apply walks_clean_list; [|done].
  apply Forall_forall. intros c _. apply walks_clean_node.
Qed.

(** A document without markers is left as it is, and nothing is inserted. *)
Lemma walks_no_marker cs isP :
  existsb marked cs = false → walks isP false cs 0 (cs, false, false).
Proof.
  intros Hclean. pose proof (walks_clean cs [] [] isP false (cs, false, false) Hclean) as Hw.
  rewrite app_nil_r in Hw. simpl in Hw. apply Hw. apply walks_end.
  by apply lookup_ge_None_2.
Qed.

(** *** Every marker is replaced *)

Hypothesis tocNodes_not_empty : tocNodes ≠ [].
Hypothesis tocNodes_clean : existsb marked tocNodes = false.

Lemma splice_middle pre c post :
  splice (length pre) tocNodes (pre ++ c :: post) = pre ++ tocNodes ++ post.
Proof.
  unfold splice. rewrite take_app_length.
  replace (S (length pre)) with (length (pre ++ [c])) by (rewrite length_app; simpl; lia).
  replace (pre ++ c :: post) with ((pre ++ [c]) ++ post) by (by rewrite <- app_assoc).
  by rewrite drop_app_length.
Qed.

(** After a replacement at [length pre] the walk goes on behind the first
    inserted node and passes over the other inserted nodes. *)
Lemma walks_over_inserted pre post isP ins r :
  walks isP ins (pre ++ tocNodes ++ post) (length (pre ++ tocNodes)) r →
  walks isP ins (pre ++ tocNodes ++ post) (S (length pre)) r.
Proof.
  assert (∃ t0 toc', tocNodes = t0 :: toc') as (t0 & toc' & Htoc)
    by (destruct tocNodes; [done | eauto]).
  assert (existsb marked toc' = false) as Hclean.
  { pose proof tocNodes_clean as Hc. rewrite Htoc in Hc. simpl in Hc.
    by apply orb_false_iff in Hc as [_ ?]. }
  assert (pre ++ tocNodes ++ post = (pre ++ [t0]) ++ toc' ++ post) as ->
    by (by rewrite Htoc, <- app_assoc).
  assert (length (pre ++ tocNodes) = length (pre ++ [t0]) + length toc') as ->
    by (rewrite Htoc, !length_app; simpl; lia).
  assert (S (length pre) = length (pre ++ [t0])) as ->
    by (rewrite length_app; simpl; lia).
  by apply walks_clean.
Qed.

Lemma walks_replaced_list cs :
  Forall replacedChildren cs →
  ∀ pre isP ins,
    (pre = [] → isP = true → match cs with [Comment v] => marker v = false | _ => True end) →
    walks isP ins (pre ++ cs) (length pre)
      (pre ++ flat_map replaced cs, ins || existsb marked cs, false).
Proof.
  induction 1 as [|c cs Hc _ IH]; intros pre isP ins Hsole.
  { simpl. rewrite app_nil_r, orb_false_r. apply walks_end. by apply lookup_ge_None_2. }
  assert ((pre ++ c :: cs) !! length pre = Some c) as Hlook.
  { rewrite lookup_app_r, Nat.sub_diag by lia. done. }
  assert (walks isP true (pre ++ tocNodes ++ cs) (S (length pre))
            (pre ++ tocNodes ++ flat_map replaced cs, true, false)) as Hinserted.
  { apply walks_over_inserted.
    assert (pre ++ tocNodes = [] → isP = true →
            match cs with [Comment v] => marker v = false | _ => True end) as Hpre.
    { intros [_ Htoc]%app_eq_nil. done. }
    specialize (IH (pre ++ tocNodes) isP true Hpre).
    by rewrite <- !app_assoc in IH. }
  assert (∀ c' ins', replaced c = [c'] → ins' = ins || marked c →
            walks isP ins' (pre ++ c' :: cs) (S (length pre))
              (pre ++ flat_map replaced (c :: cs), ins || existsb marked (c :: cs), false))
    as Hkept.
  { intros c' ins' Hrep ->. simpl. rewrite Hrep. simpl.
    assert (pre ++ [c'] = [] → isP = true →
            match cs with [Comment v] => marker v = false | _ => True end) as Hpre.
    { intros [_ ?]%app_eq_nil. done. }
    specialize (IH (pre ++ [c']) isP (ins || marked c) Hpre).
    rewrite <- !app_assoc, length_app, <- orb_assoc in IH. simpl in IH.
    by rewrite Nat.add_1_r in IH. }
  destruct c as [tag props es|v|v|].
  - specialize (Hc ins). simpl in Hc.
    destruct (isMarkerParagraph trim toLowerCase tag es) eqn:Hmp.
    + eapply walks_element; [exact Hlook | exact Hc |]. rewrite splice_middle.
      simpl. rewrite Hmp.
      assert (existsb marked es = true) as ->.
      { unfold isMarkerParagraph in Hmp. apply andb_true_iff in Hmp as [_ Hmp].
        destruct es as [|[| |v|] [|]]; try done. simpl. by rewrite Hmp. }
      rewrite orb_true_r. simpl. done.
    + eapply walks_element; [exact Hlook | exact Hc |]. simpl.
      assert (<[length pre := Element tag props (flat_map replaced es)]> (pre ++ Element tag props es :: cs)
              = pre ++ Element tag props (flat_map replaced es) :: cs) as ->.
      { rewrite insert_app_r_alt, Nat.sub_diag by lia. done. }
      apply Hkept; [|done]. simpl. by rewrite Hmp.
  - eapply walks_next; [exact Hlook | done |]. by apply Hkept; [|rewrite orb_false_r].
  - destruct (marker v) eqn:Hv.
    + eapply walks_marker; [exact Hlook | done | |].
      * destruct isP; [|done]. simpl. apply Nat.eqb_neq. rewrite length_app. simpl.
        destruct pre as [|? ?]; [|simpl; lia]. destruct cs as [|? ?]; [|simpl; lia].
        specialize (Hsole eq_refl eq_refl). simpl in Hsole. congruence.
      * rewrite splice_middle. simpl. rewrite Hv, orb_true_r. simpl. done.
    + eapply walks_next; [exact Hlook | done |].
      apply Hkept; simpl; [by rewrite Hv | by rewrite Hv, orb_false_r].
  - eapply walks_next; [exact Hlook | done |]. by apply Hkept; [|rewrite orb_false_r].
Qed.

Lemma walks_replaced_node n : replacedChildren n.
Proof.
  induction n as [tag props es IH|v|v|] using Node_nested_ind; try done.
  simpl. intros ins. destruct (isMarkerParagraph trim toLowerCase tag es) eqn:Hmp.
  - unfold isMarkerParagraph in Hmp. apply andb_true_iff in Hmp as [Hp Hmp].
    rewrite Hp. destruct es as [|[| |v|] [|]]; try done.
    by apply (walks_marker_paragraph ins [Comment v] 0 v).
  - apply (walks_replaced_list es IH []). intros _ Hp.
    unfold isMarkerParagraph in Hmp. rewrite Hp in Hmp. simpl in Hmp.
    by destruct es as [|[| |v|] [|]].
Qed.

(** The walk over the document replaces every marker comment, or the
    paragraph it is alone in, by [tocNodes]; the flag tells whether there was
    one. *)
Lemma walks_replaced cs :
  walks false false cs 0 (flat_map replaced cs, existsb marked cs, false).
Proof.
  apply (walks_replaced_list cs) with (pre := []); [|done].
  apply Forall_forall. intros c _. apply walks_replaced_node.
Qed.

End PlacementFacts.

(** ** Resolved identifiers of a sequence of headings *)

Section ResolutionFacts.

Variable toText : Node → string.
Variable trim : string → string.
Variable slugify : string → string.

Local Abbreviation visit := (visitNode toText trim slugify).
Local Abbreviation visitAll := (visitList (visitNode toText trim slugify)).
Local Abbreviation inputsOf := (headingInputs toText trim).
Local Abbreviation resolve := (resolveAll slugify).

Lemma generatedSlugs_cons e txt rest s slugs :
  generatedSlugs ((e, txt) :: rest) (s :: slugs)
  = if decide (lacksId e) then s :: generatedSlugs rest slugs else generatedSlugs rest slugs.
Proof.
  unfold generatedSlugs. simpl. destruct (decide (lacksId e)) as [He|He].
  - by rewrite filter_cons_True.
  - by rewrite filter_cons_False.
Qed.

Lemma resolveAll_app a b occ :
  resolve (a ++ b) occ =
    let '(s1, occ1) := resolve a occ in
    let '(s2, occ2) := resolve b occ1 in
    (s1 ++ s2, occ2).
Proof.
  revert occ. induction a as [|[e txt] a IH]; intros occ; simpl.
  - by destruct (resolve b occ).
  - destruct (resolveId slugify e txt occ) as [slg occ1]. rewrite IH.
    destruct (resolve a occ1) as [s1 occ2]. by destruct (resolve b occ2).
Qed.

(** Identifiers that are present are kept, and the generated ones are new
    keys of the slugger, hence pairwise different. *)
Lemma resolveAll_spec inputs : ∀ occ slugs occ',
  resolve inputs occ = (slugs, occ') →
  length slugs = length inputs ∧ dom occ ⊆ dom occ' ∧
  (∀ i e txt, inputs !! i = Some (e, txt) → ¬ lacksId e → slugs !! i = e) ∧
  NoDup (generatedSlugs inputs slugs) ∧
  (∀ s, s ∈ generatedSlugs inputs slugs → occ !! s = None ∧ s ∈ dom occ').
Proof.
  induction inputs as [|[e txt] inputs IH]; intros occ slugs occ'; simpl.
  { intros [= <- <-]. split; [done|]. split; [done|].
    split; [intros i e txt Hi; by rewrite lookup_nil in Hi|].
    split; [constructor|]. intros s Hs. by apply elem_of_nil in Hs. }
  destruct (resolveId slugify e txt occ) as [slg occ1] eqn:Hres.
  destruct (resolve inputs occ1) as [slugs1 occ2] eqn:Hrest. intros [= <- <-].
  apply resolveId_spec in Hres as [Hdom1 Hres].
  destruct (IH _ _ _ Hrest) as (Hlen & Hdom2 & Hkept & Hnodup & Hnew).
  split; [simpl; lia|]. split; [by etrans|]. split; [|rewrite generatedSlugs_cons; split].
  - intros [|i] e0 txt0; simpl.
    + intros [= <- <-] Hno. destruct Hres as [(_ & -> & _)|[Hlack _]]; done.
    + apply Hkept.
  - destruct (decide (lacksId e)) as [He|He]; [|done].
    destruct Hres as [(Hno & _)|[_ Hslug]]; [done|].
    apply sluggerSlug_spec in Hslug as (_ & Hin & _).
    constructor; [|done]. intros Hmem. apply Hnew in Hmem as [Hfree _].
    by apply not_elem_of_dom in Hfree.
  - intros s Hs.
    assert (s ∈ generatedSlugs inputs slugs1 → occ !! s = None ∧ s ∈ dom occ2) as Hold.
    { intros Hmem. apply Hnew in Hmem as [Hfree Hin]. split; [|done].
      apply not_elem_of_dom. intros Hs0. apply Hdom1 in Hs0.
      by apply not_elem_of_dom in Hfree. }
    destruct (decide (lacksId e)) as [He|He]; [|by apply Hold].
    apply elem_of_cons in Hs as [->|Hs]; [|by apply Hold].
    destruct Hres as [(Hno & _)|[_ Hslug]]; [done|].
    apply sluggerSlug_spec in Hslug as (Hfree & Hin & _). split; [done|]. by apply Hdom2.
Qed.

(** The walk over the tree resolves the identifiers of its headings in visit
    order. *)
Lemma visitNode_resolveAll n : ∀ occ,
  resolve (inputsOf n) occ = (map slug (visit n occ).2, (visit n occ).1.2).
Proof.
  induction n as [tag props cs IH|v|v|] using Node_nested_ind; intros occ; try done.
  assert (∀ occ0, resolve (flat_map inputsOf cs) occ0
                  = (map slug (visitAll cs occ0).2, (visitAll cs occ0).1.2)) as Hcs.
  { induction IH as [|c cs Hc _ IHcs]; intros occ0; [done|].
    simpl flat_map. rewrite resolveAll_app, Hc, visitList_cons.
    destruct (visit c occ0) as [[c' occ1] hs1]. simpl. rewrite IHcs.
    destruct (visitAll cs occ1) as [[cs' occ2] hs2]. simpl. by rewrite map_app. }
  rewrite visitNode_element. simpl. destruct (headingDepth tag) as [d|] eqn:Hd.
  - simpl. unfold visitHeading.
    destruct (resolveId slugify _ _ occ) as [slg occ1]. rewrite Hcs.
    by destruct (visitAll cs occ1) as [[cs' occ2] hs].
  - simpl. rewrite Hcs. by destruct (visitAll cs occ) as [[cs' occ2] hs].
Qed.

Lemma visitList_resolveAll cs occ :
  resolve (flat_map inputsOf cs) occ
  = (map slug (visitAll cs occ).2, (visitAll cs occ).1.2).
Proof.
  revert occ. induction cs as [|c cs IH]; intros occ; [done|].
  simpl flat_map. rewrite resolveAll_app, visitNode_resolveAll, visitList_cons.
  destruct (visit c occ) as [[c' occ1] hs1]. simpl. rewrite IH.
  destruct (visitAll cs occ1) as [[cs' occ2] hs2]. simpl. by rewrite map_app.
Qed.

Lemma collectHeadings_resolveAll tree :
  (resolve (flat_map inputsOf (rootChildren tree)) ∅).1
  = map slug (collectHeadings toText trim slugify tree).2.
Proof.
  unfold collectHeadings. rewrite visitList_resolveAll.
  by destruct (visitAll (rootChildren tree) ∅) as [[cs occ] hs].
Qed.



End ResolutionFacts.

(** ** [generateToc] and the transformer *)



Section TransformerFacts.

Variable toText : Node → string.
Variable trim : string → string.
Variable slugify : string → string.
Variable toLowerCase : string → string.
Variable toHtml : Node → string.
Variable fromHtml : string → list Node.

Local Abbreviation collect := (collectHeadings toText trim slugify).
Local Abbreviation generate := (generateToc toText trim slugify toHtml fromHtml).
Local Abbreviation transform :=
  (transformer toText trim slugify toLowerCase toHtml fromHtml).
Local Abbreviation marker := (isMarker trim toLowerCase).
Local Abbreviation marked := (hasMarker trim toLowerCase).
Local Abbreviation walks := (walksTo trim toLowerCase).
Local Abbreviation replaced := (replaceMarkers trim toLowerCase).

Lemma generateToc_tree tree options : (generate tree options).1 = (collect tree).1.
Proof.
  unfold generateToc. destruct (collect tree) as [tree' [|h hs]]; [done|].
  by destruct (buildToc _ _ _).
Qed.



Lemma hasMarker_stripHeadingIds n : marked (stripHeadingIds n) = marked n.
Proof.
  induction n as [tag props cs IH|v|v|] using Node_nested_ind; try done.
  simpl. induction IH as [|c cs Hc _ IHcs]; [done|]. simpl. by rewrite Hc, IHcs.
Qed.

Lemma existsb_hasMarker_strip cs :
  existsb marked (map stripHeadingIds cs) = existsb marked cs.
Proof.
  induction cs as [|c cs IH]; [done|]. simpl. by rewrite hasMarker_stripHeadingIds, IH.
Qed.

(** The walk of the collection neither adds nor removes a marker. *)
Lemma collectHeadings_hasMarker tree :
  existsb marked (rootChildren (collect tree).1) = existsb marked (rootChildren tree).
Proof.
  unfold collectHeadings.
  pose proof (visitList_frame toText trim slugify (rootChildren tree) ∅) as Hframe.
  destruct (visitList _ _ _) as [[cs occ] hs]. simpl in *.
  by rewrite <- (existsb_hasMarker_strip cs), Hframe, existsb_hasMarker_strip.
Qed.

Lemma transformer_walks tree options tocNodes cs ins rep :
  (generate tree options).2 = Ok tocNodes →
  walks tocNodes false false (rootChildren (collect tree).1) 0 (cs, ins, rep) →
  ∃ fuel0, ∀ fuel, fuel0 ≤ fuel →
    transform fuel options tree
    = Some (mkRoot (if ins then cs else tocNodes ++ cs), Ok tt).
Proof.
  intros Hgen [fuel0 Hw]. exists fuel0. intros fuel Hfuel. unfold transformer.
  pose proof (generateToc_tree tree options) as Htree.
  destruct (generate tree options) as [tree1 r]. simpl in *. subst r tree1.
  by rewrite Hw.
Qed.

Lemma transformer_throws tree options fuel :
  (generate tree options).2 = ParentNodeNotFound →
  transform fuel options tree = Some ((collect tree).1, ParentNodeNotFound).
Proof.
  intros Hgen. unfold transformer.
  pose proof (generateToc_tree tree options) as Htree.
  destruct (generate tree options) as [tree1 r]. simpl in *. by subst r tree1.
Qed.


End TransformerFacts.

(** ** The sample collaborators *)

Lemma toTextSample_ignores_heading_ids n : toTextSample (stripHeadingIds n) = toTextSample n.
Proof.
  induction n as [tag props cs IH|v|v|] using Node_nested_ind; try done.
  simpl. induction IH as [|c cs Hc _ IHcs]; [done|]. simpl. by rewrite Hc, IHcs.
Qed.

(** ** Collection, generation and placement: the claims *)

(** C5 (as the code has it): when no marker comment occurs in the document,
    the outline nodes are put in front of the children of the root; when
    markers occur, each of them is used, not only the first: with outline
    nodes that are not empty and hold no marker themselves, every marker
    comment (or the paragraph it is alone in) is replaced by the outline
    nodes, and nothing is put in front. *)
Theorem markers_all_replaced toText trim slugify toLowerCase toHtml fromHtml
    tree options tocNodes :
  (generateToc toText trim slugify toHtml fromHtml tree options).2 = Ok tocNodes →
  let children1 := rootChildren (collectHeadings toText trim slugify tree).1 in
  (existsb (hasMarker trim toLowerCase) (rootChildren tree) = false →
   ∃ fuel0, ∀ fuel, fuel0 ≤ fuel →
     transformer toText trim slugify toLowerCase toHtml fromHtml fuel options tree
     = Some (mkRoot (tocNodes ++ children1), Ok tt)) ∧
  (existsb (hasMarker trim toLowerCase) (rootChildren tree) = true →
   tocNodes ≠ [] → existsb (hasMarker trim toLowerCase) tocNodes = false →
   ∃ fuel0, ∀ fuel, fuel0 ≤ fuel →
     transformer toText trim slugify toLowerCase toHtml fromHtml fuel options tree
     = Some (mkRoot (flat_map (replaceMarkers trim toLowerCase tocNodes) children1), Ok tt)).
Proof.
  intros Hgen children1.
  pose proof (collectHeadings_hasMarker toText trim slugify toLowerCase tree) as Hsame.
  fold children1 in Hsame. split.
  - intros Hnone. rewrite <- Hsame in Hnone.
    apply (transformer_walks _ _ _ _ _ _ _ _ _ _ false false Hgen).
    by apply walks_no_marker.
  - intros Hsome Hne Hclean. rewrite <- Hsame in Hsome.
    pose proof (walks_replaced trim toLowerCase tocNodes Hne Hclean children1) as Hw.
    rewrite Hsome in Hw.
    apply (transformer_walks _ _ _ _ _ _ _ _ _ _ _ _ Hgen Hw).
Qed.

Lemma markers_all_replaced_witness :
  ∃ fuel0, ∀ fuel, fuel0 ≤ fuel →
    transformerSample fuel defaultOptionsSample
      (mkRoot [Comment " TOC "; Element "h1" ∅ [Text "A"]; Comment "toc"])
    = Some (mkRoot
              (flat_map
                 (replaceMarkers trimSample lowerAscii
                    (fromHtmlSample (defaultTemplate trimSample
                       (toHtmlSample (Element "ul" ∅ [li (mkHeading 1 "a" "A")])))))
                 (rootChildren (collectHeadingsSample
                    (mkRoot [Comment " TOC "; Element "h1" ∅ [Text "A"]; Comment "toc"])).1)),
            Ok tt).
Proof.
  apply (markers_all_replaced toTextSample trimSample slugifyAscii lowerAscii
           toHtmlSample fromHtmlSample
           (mkRoot [Comment " TOC "; Element "h1" ∅ [Text "A"]; Comment "toc"])
           defaultOptionsSample
           (fromHtmlSample (defaultTemplate trimSample
              (toHtmlSample (Element "ul" ∅ [li (mkHeading 1 "a" "A")]))))).
  - vm_compute. reflexivity.
  - vm_compute. reflexivity.
  - vm_compute. discriminate.
  - vm_compute. reflexivity.
Defined.

(** C5, the claim as stated fails: a document with a marker, a heading and a
    second marker ends with the outline nodes at both places. *)
Lemma both_markers_replaced :
  ∃ tocNodes heading,
    tocNodes ≠ [] ∧
    generateTocSample (mkRoot [Comment " TOC "; Element "h1" ∅ [Text "A"]; Comment "toc"])
                      defaultOptionsSample
    = (mkRoot [Comment " TOC "; heading; Comment "toc"], Ok tocNodes) ∧
    transformerSample 10 defaultOptionsSample
      (mkRoot [Comment " TOC "; Element "h1" ∅ [Text "A"]; Comment "toc"])
    = Some (mkRoot (tocNodes ++ [heading] ++ tocNodes), Ok tt).
Proof.
  eexists _, _. split; [|split].
  2: { vm_compute. reflexivity. }
  - discriminate.
  - vm_compute. reflexivity.
Qed.

(** C6 (as the code has it): an identifier that a heading brings along is
    kept as it is, and the identifiers generated for the headings without
    one are pairwise different; identifiers that headings bring along are
    not made known to the slug generator. *)
Theorem generated_slugs_distinct toText trim slugify tree :
  let inputs := flat_map (headingInputs toText trim) (rootChildren tree) in
  let slugs := map slug (collectHeadings toText trim slugify tree).2 in
  length slugs = length inputs ∧
  (∀ i e txt, inputs !! i = Some (e, txt) → ¬ lacksId e → slugs !! i = e) ∧
  NoDup (generatedSlugs inputs slugs).
Proof.
  intros inputs slugs. unfold slugs. rewrite <- collectHeadings_resolveAll. fold inputs.
  destruct (resolveAll slugify inputs ∅) as [out occ] eqn:Hres.
  apply resolveAll_spec in Hres as (Hlen & _ & Hkept & Hnodup & _). done.
Qed.

Lemma generated_slugs_distinct_witness :
  map slug (collectHeadingsSample
              (mkRoot [Element "h1" {["id" := "intro"]} [Text "Welcome"];
                       Element "h2" ∅ [Text " Intro "]])).2 !! 0
  = Some "intro".
Proof.
  apply (proj1 (proj2 (generated_slugs_distinct toTextSample trimSample slugifyAscii
           (mkRoot [Element "h1" {["id" := "intro"]} [Text "Welcome"];
                    Element "h2" ∅ [Text " Intro "]])))
           0 (Some "intro") "Welcome").
  - vm_compute. reflexivity.
  - intros [Hnone|Hempty]; discriminate.
Defined.

(** C6, the claim as stated fails: the only identifier brought along is
    [intro], and the slug generated for the second heading is [intro] as
    well. *)
Lemma generated_slug_equals_existing_id :
  let tree := mkRoot [Element "h1" {["id" := "intro"]} [Text "Welcome"];
                      Element "h2" ∅ [Text " Intro "]] in
  NoDup (existingIds (flat_map (headingInputs toTextSample trimSample) (rootChildren tree))) ∧
  map slug (collectHeadingsSample tree).2 = ["intro"; "intro"] ∧
  ¬ NoDup (map slug (collectHeadingsSample tree).2).
Proof.
  simpl. split; [|split].
  - vm_compute. apply NoDup_singleton.
  - vm_compute. reflexivity.
  - assert (map slug (collectHeadingsSample
              (mkRoot [Element "h1" {["id" := "intro"]} [Text "Welcome"];
                       Element "h2" ∅ [Text " Intro "]])).2 = ["intro"; "intro"]) as ->
      by (vm_compute; reflexivity).
    intros Hnd. apply NoDup_cons in Hnd as [Hnotin _]. apply Hnotin. by left.
Qed.

(** C8: when [toText] does not depend on the [id] of headings, a second
    call on the tree left by the first finds the same headings with the same
    identifiers, leaves the tree as it is and gives the same result. *)
Theorem generateToc_again toText trim slugify toHtml fromHtml :
  (∀ n, toText (stripHeadingIds n) = toText n) →
  ∀ tree options,
    let out := generateToc toText trim slugify toHtml fromHtml tree options in
    collectHeadings toText trim slugify out.1
    = (out.1, (collectHeadings toText trim slugify tree).2) ∧
    generateToc toText trim slugify toHtml fromHtml out.1 options = out.
Proof.
  intros Htext tree options out.
  assert (out.1 = (collectHeadings toText trim slugify tree).1) as Htree
    by apply generateToc_tree.
  destruct (collectHeadings toText trim slugify tree) as [tree' hs] eqn:Hcollect.
  pose proof (collectHeadings_again toText trim slugify Htext _ _ _ Hcollect) as Hagain.
  simpl in Htree. rewrite Htree. split; [done|].
  unfold out, generateToc. rewrite Hcollect, Hagain. done.
Qed.

Lemma generateToc_again_witness :
  let tree := mkRoot [Element "h2" ∅ [Text "One"]; Element "h2" ∅ [Text "one"];
                      Element "h3" {["id" := "x"]} []; Element "h2" ∅ []] in
  let out := generateTocSample tree defaultOptionsSample in
  collectHeadingsSample out.1 = (out.1, (collectHeadingsSample tree).2) ∧
  generateTocSample out.1 defaultOptionsSample = out.
Proof.
  apply (generateToc_again toTextSample trimSample slugifyAscii toHtmlSample fromHtmlSample
           toTextSample_ignores_heading_ids).
Defined.

(** C9: [generateToc] changes the tree only in the [id] property of heading
    elements; afterwards every heading element has an [id], whatever
    [maxDepth] is and whether or not the build throws. *)
Theorem generateToc_writes_heading_ids_only toText trim slugify toHtml fromHtml tree options :
  let tree' := (generateToc toText trim slugify toHtml fromHtml tree options).1 in
  map stripHeadingIds (rootChildren tree') = map stripHeadingIds (rootChildren tree) ∧
  forallb headingsHaveId (rootChildren tree') = true ∧
  tree' = (collectHeadings toText trim slugify tree).1.
Proof.
  intros tree'. unfold tree'. rewrite generateToc_tree. unfold collectHeadings.
  pose proof (visitList_frame toText trim slugify (rootChildren tree) ∅) as Hframe.
  pose proof (visitList_headingsHaveId toText trim slugify (rootChildren tree) ∅) as Hids.
  by destruct (visitList _ _ _) as [[cs occ] hs].
Qed.




(** * Further properties *)

(** ** The open lists of the outline *)

Lemma last_child_split {A} (cs : list A) i x :
  S i = length cs → cs !! i = Some x → cs = take i cs ++ [x].
Proof.
  intros Hlen Hx. rewrite <- (take_drop i cs) at 1. f_equal.
  rewrite (drop_S _ _ _ Hx), drop_ge by lia. done.
Qed.

Lemma alter_last_child {A} (f : A → A) (cs : list A) i x :
  S i = length cs → cs !! i = Some x → alter f i cs = take i cs ++ [f x].
Proof.
  intros Hlen Hx. rewrite (last_child_split cs i x Hlen Hx) at 1.
  rewrite alter_app_r_alt by (rewrite length_take; lia).
  rewrite length_take, Nat.min_l, Nat.sub_diag by lia. done.
Qed.

Lemma spine_list ord p t : spine ord p t → ∃ props cs, t = Element (listTag ord) props cs.
Proof.
  destruct p, t as [tag props cs| | |]; simpl; try done; intros [-> _]; by eexists _, _.
Qed.

Lemma spine_nodeAt ord p : ∀ t,
  spine ord p t → ∃ props cs, nodeAt p t = Some (Element (listTag ord) props cs).
Proof.
  induction p as [|i p IH]; intros t Hsp.
  - apply spine_list in Hsp as (props & cs & ->). by eexists _, _.
  - destruct t as [tag props cs| | |]; simpl in Hsp; try done.
    destruct Hsp as (_ & _ & x & Hx & Hsp). simpl. rewrite Hx. simpl. by apply IH.
Qed.

(** Pushing onto an open list keeps the lists above it open. *)
Lemma spine_pushChild_above ord c q : ∀ p t,
  spine ord q t → spine ord p t → length q ≤ length p → spine ord q (pushChild p c t).
Proof.
  induction q as [|i q IH]; intros p t Hq Hp Hlen.
  - apply spine_list in Hq as (props & cs & ->). by destruct p.
  - destruct p as [|j p]; [simpl in Hlen; lia|].
    destruct t as [tag props cs| | |]; simpl in Hq, Hp; try done.
    destruct Hq as (Htag & Hi & x & Hx & Hq). destruct Hp as (_ & Hj & y & Hy & Hp).
    assert (j = i) as -> by lia. assert (y = x) as -> by congruence.
    simpl. split; [done|]. rewrite length_alter. split; [done|].
    exists (pushChild p c x). rewrite list_lookup_alter_eq, Hx. split; [done|].
    apply IH; [done | done | simpl in Hlen; lia].
Qed.

(** A list pushed onto the deepest open list is the new deepest one. *)
Lemma spine_pushChild_new ord props' cs' p : ∀ t,
  spine ord p t →
  spine ord (p ++ [length (childrenAt p t)])
        (pushChild p (Element (listTag ord) props' cs') t).
Proof.
  induction p as [|i p IH]; intros t Hp.
  - apply spine_list in Hp as (props & cs & ->). simpl. split; [done|].
    change (childrenAt [] (Element (listTag ord) props cs)) with cs.
    rewrite length_app. simpl. split; [lia|].
    exists (Element (listTag ord) props' cs'). split; [|done].
    rewrite lookup_app_r, Nat.sub_diag by lia. done.
  - destruct t as [tag props cs| | |]; simpl in Hp; try done.
    destruct Hp as (Htag & Hi & x & Hx & Hp).
    assert (childrenAt (i :: p) (Element tag props cs) = childrenAt p x) as ->
      by (unfold childrenAt; simpl; by rewrite Hx).
    simpl. split; [done|]. rewrite length_alter. split; [done|].
    exists (pushChild p (Element (listTag ord) props' cs') x).
    rewrite list_lookup_alter_eq, Hx. split; [done|]. by apply IH.
Qed.

Lemma links_list ord props cs :
  links (Element (listTag ord) props cs) = flat_map links cs.
Proof. by destruct ord. Qed.

Lemma links_pushChild ord c p : ∀ t,
  spine ord p t → links (pushChild p c t) = links t ++ links c.
Proof.
  induction p as [|i p IH]; intros t Hp.
  - apply spine_list in Hp as (props & cs & ->). simpl pushChild.
    rewrite !links_list, flat_map_app. simpl. by rewrite app_nil_r.
  - destruct t as [tag props cs| | |]; simpl in Hp; try done.
    destruct Hp as (-> & Hi & x & Hx & Hp). simpl pushChild.
    rewrite !links_list, (alter_last_child _ cs i x Hi Hx).
    rewrite (last_child_split cs i x Hi Hx) at 2.
    rewrite !flat_map_app. simpl. rewrite !app_nil_r, (IH x Hp). by rewrite app_assoc.
Qed.

Lemma flattenDepths_list ord props cs level :
  flattenDepths level (Element (listTag ord) props cs)
  = flat_map (flattenDepths (S level)) cs.
Proof. by destruct ord. Qed.

Lemma flattenDepths_pushChild ord c p : ∀ t level,
  spine ord p t →
  flattenDepths level (pushChild p c t)
  = flattenDepths level t ++ flattenDepths (level + S (length p)) c.
Proof.
  induction p as [|i p IH]; intros t level Hp.
  - apply spine_list in Hp as (props & cs & ->). simpl pushChild.
    rewrite !flattenDepths_list, flat_map_app. simpl.
    by rewrite app_nil_r, Nat.add_1_r.
  - destruct t as [tag props cs| | |]; simpl in Hp; try done.
    destruct Hp as (-> & Hi & x & Hx & Hp). simpl pushChild.
    rewrite !flattenDepths_list, (alter_last_child _ cs i x Hi Hx).
    rewrite (last_child_split cs i x Hi Hx) at 2.
    rewrite !flat_map_app. simpl. rewrite !app_nil_r, (IH x (S level) Hp).
    rewrite <- app_assoc. do 3 f_equal. lia.
Qed.

Lemma usesOnly_pushChild tags c p : ∀ t,
  usesOnly tags t = true → usesOnly tags c = true → usesOnly tags (pushChild p c t) = true.
Proof.
  induction p as [|i p IH]; intros t Ht Hc.
  - destruct t as [tag props cs| | |]; try done. simpl in *.
    apply andb_true_iff in Ht as [Htag Hcs]. rewrite Htag, forallb_app, Hcs. simpl.
    by rewrite Hc.
  - destruct t as [tag props cs| | |]; try done. simpl in *.
    apply andb_true_iff in Ht as [Htag Hcs]. rewrite Htag. simpl.
    apply forallb_forall. intros y Hy. apply list_elem_of_In in Hy.
    apply list_elem_of_lookup in Hy as [j Hj].
    rewrite forallb_forall in Hcs.
    destruct (decide (i = j)) as [->|Hne].
    + rewrite list_lookup_alter_eq in Hj. destruct (cs !! j) as [x|] eqn:Hx; [|done].
      injection Hj as <-. apply IH; [|done]. apply Hcs.
      apply list_elem_of_In, list_elem_of_lookup. by exists j.
    + rewrite list_lookup_alter_ne in Hj by done. apply Hcs.
      apply list_elem_of_In, list_elem_of_lookup. by exists j.
Qed.

(** ** The shape of the outline along the loop *)

Lemma spineState_init ord first : spineState ord (initState ord first).
Proof.
  split; [done|]. intros [|k] q; simpl; [|done]. intros [= <-]. by destruct ord.
Qed.

Lemma spineState_current ord st :
  spineState ord st →
  spine ord (currentParent st) (toc st) ∧ S (length (currentParent st)) = length (parents st).
Proof.
  intros [Hlast Hall]. rewrite last_lookup in Hlast.
  destruct (Hall _ _ Hlast) as [Hlen Hsp]. split; [done|].
  apply lookup_lt_Some in Hlast. lia.
Qed.

Lemma links_li h : links (li h) = [link h].
Proof. done. Qed.

Lemma flattenDepths_li level h : flattenDepths level (li h) = [level].
Proof. done. Qed.

Ltac path_lia := unfold path in *; lia.

(** One iteration keeps the invariant and, for a heading that takes part,
    adds its link behind the links already there, at the nesting level that
    is the new height of [parents]. *)
Lemma spineState_step maxD ord st h st' :
  spineState ord st → step maxD ord st h = Ok st' →
  spineState ord st' ∧
  links (toc st') = links (toc st) ++ (if decide (eligible maxD h) then [link h] else []) ∧
  flattenDepths 0 (toc st')
  = flattenDepths 0 (toc st)
    ++ (if decide (eligible maxD h) then [length (parents st')] else []).
Proof.
  intros Hst. destruct (spineState_current _ _ Hst) as [Hcur Hheight].
  destruct Hst as [Hlast Hall]. unfold path in *.
  assert (∀ p c k q, spine ord p (toc st) → length p < length (parents st) →
            k ≤ length p → parents st !! k = Some q →
            length q = k ∧ spine ord q (pushChild p c (toc st))) as Habove.
  { intros p c k q Hp Hplen Hk Hq. destruct (Hall _ _ Hq) as [Hqlen Hqsp].
    split; [done|]. apply spine_pushChild_above; [done | done | path_lia]. }
  destruct (Nat.ltb_spec maxD (depth h)) as [Hdeep|Hin].
  { rewrite step_skip by done. intros [= <-].
    rewrite !decide_False by (unfold eligible; path_lia). rewrite !app_nil_r.
    split; [exact (conj Hlast Hall) | by split]. }
  rewrite !decide_True by (unfold eligible; path_lia).
  destruct (Nat.lt_total (depth h) (currentDepth st)) as [Hlt|[Heq|Hgt]].
  - rewrite step_shallower by lia.
    pose proof (popParents_spec (currentDepth st - depth h) (parents st) (currentParent st))
      as Hpop.
    destruct (popParents _ _ _) as [[ps cur]|]; [|done]. intros [= <-].
    unfold spineState. simpl.
    destruct Hpop as (-> & Hn & Hcur').
    destruct (currentDepth st - depth h) as [|m] eqn:Hm; [path_lia|].
    destruct Hn as [Hn|Hn]; [done|].
    set (ps := take (length (parents st) - S m) (parents st)) in *.
    assert (length ps = length (parents st) - S m) as Hps
      by (unfold ps; rewrite length_take; path_lia).
    rewrite last_lookup in Hcur'.
    assert (parents st !! pred (length ps) = Some cur) as Hcurp.
    { unfold ps in Hcur'. apply lookup_take_Some in Hcur' as [? _]. done. }
    destruct (Hall _ _ Hcurp) as [Hcurlen Hcursp]. unfold path in *.
    split; [split|split].
    + by rewrite last_lookup.
    + intros k q Hq. unfold ps in Hq. apply lookup_take_Some in Hq as [Hq Hk].
      apply Habove; [done | path_lia | path_lia | done].
    + by rewrite (links_pushChild ord _ _ _ Hcursp), links_li.
    + rewrite (flattenDepths_pushChild ord _ _ _ _ Hcursp), flattenDepths_li.
      do 2 f_equal. path_lia.
  - rewrite step_same by lia. intros [= <-]. unfold spineState. simpl.
    split; [split|split].
    + done.
    + intros k q Hq. apply Habove; [done | path_lia | | done].
      apply lookup_lt_Some in Hq. path_lia.
    + by rewrite (links_pushChild ord _ _ _ Hcur), links_li.
    + rewrite (flattenDepths_pushChild ord _ _ _ _ Hcur), flattenDepths_li.
      do 2 f_equal. path_lia.
  - rewrite step_deeper by lia. intros [= <-]. unfold spineState. simpl.
    split; [split|split].
    + apply last_snoc.
    + intros k q [Hq|[Hk Hq]]%lookup_app_Some.
      * apply Habove; [done | path_lia | | done]. apply lookup_lt_Some in Hq. path_lia.
      * apply list_lookup_singleton_Some in Hq as [Hd <-].
        split; [rewrite length_app; simpl; path_lia|].
        by apply spine_pushChild_new.
    + by rewrite (links_pushChild ord _ _ _ Hcur), links_list.
    + rewrite (flattenDepths_pushChild ord _ _ _ _ Hcur), flattenDepths_list.
      simpl. rewrite length_app. simpl. do 2 f_equal. path_lia.
Qed.

Lemma spineState_run maxD ord hs : ∀ st st',
  spineState ord st → run maxD ord st hs = Ok st' →
  spineState ord st' ∧
  links (toc st') = links (toc st) ++ map link (filter (eligible maxD) hs) ∧
  flattenDepths 0 (toc st')
  = flattenDepths 0 (toc st)
    ++ nestingLevels maxD (currentDepth st) (length (parents st)) (map depth hs).
Proof.
  induction hs as [|h hs IH]; intros st st' Hst; simpl.
  { intros [= <-]. by rewrite !app_nil_r. }
  destruct (step maxD ord st h) as [st1|] eqn:Hstep; [|done]. intros Hrun.
  destruct (spineState_step _ _ _ _ _ Hst Hstep) as (Hst1 & Hlinks1 & Hflat1).
  destruct (IH _ _ Hst1 Hrun) as (Hst' & Hlinks & Hflat).
  split; [done|]. rewrite Hlinks, Hlinks1, Hflat, Hflat1, <- !app_assoc.
  destruct (Nat.ltb_spec maxD (depth h)) as [Hdeep|Hin].
  { rewrite step_skip in Hstep by done. injection Hstep as <-.
    rewrite !decide_False by (unfold eligible; lia).
    rewrite filter_cons_False by (unfold eligible; lia). done. }
  rewrite !decide_True by (unfold eligible; lia).
  rewrite filter_cons_True by (unfold eligible; lia). split; [done|]. f_equal. simpl.
  destruct (Nat.eqb_spec (depth h) (currentDepth st)) as [Heq|Hne].
  { rewrite step_same in Hstep by lia. injection Hstep as <-. simpl. by rewrite Heq. }
  destruct (Nat.ltb_spec (currentDepth st) (depth h)).
  { rewrite step_deeper in Hstep by lia. injection Hstep as <-. simpl.
    by rewrite length_app, Nat.add_1_r. }
  rewrite step_shallower in Hstep by lia.
  destruct (popParents _ _ _) as [[ps cur]|] eqn:Hpop; [|done].
  injection Hstep as <-. simpl. by rewrite (popParents_length _ _ _ _ _ Hpop).
Qed.

Lemma usesOnly_run maxD ord tags hs : ∀ st st',
  listTag ord ∈ tags → "li" ∈ tags → "a" ∈ tags →
  usesOnly tags (toc st) = true → run maxD ord st hs = Ok st' →
  usesOnly tags (toc st') = true.
Proof.
  intros st st' Hlist Hli Ha. revert st st'.
  assert (∀ h, usesOnly tags (li h) = true) as Hitem.
  { intros h. simpl. by rewrite !bool_decide_eq_true_2. }
  assert (∀ h, usesOnly tags (Element (listTag ord) ∅ [li h]) = true) as Hnested.
  { intros h. simpl. by rewrite !bool_decide_eq_true_2. }
  induction hs as [|h hs IH]; intros st st' Hst; simpl; [by intros [= <-]|].
  destruct (step maxD ord st h) as [st1|] eqn:Hstep; [|done].
  apply IH. revert Hstep. unfold step.
  destruct (maxD <? depth h); [by intros [= <-]|].
  destruct (depth h =? currentDepth st).
  { intros [= <-]. by apply usesOnly_pushChild. }
  destruct (currentDepth st <? depth h).
  { intros [= <-]. by apply usesOnly_pushChild. }
  destruct (popParents _ _ _) as [[ps cur]|]; [|done].
  intros [= <-]. by apply usesOnly_pushChild.
Qed.

Lemma nestingLevels_stepwise maxD base hs : ∀ cur frames,
  base ≤ cur → frames = S (cur - base) →
  stepwise maxD base cur (map depth hs) = true →
  nestingLevels maxD cur frames (map depth hs)
  = map (λ h, S (depth h - base)) (filter (eligible maxD) hs).
Proof.
  induction hs as [|h hs IH]; intros cur frames Hbase Hframes; [done|]. simpl.
  destruct (Nat.ltb_spec maxD (depth h)).
  { rewrite filter_cons_False by (unfold eligible; lia). by apply IH. }
  rewrite filter_cons_True by (unfold eligible; lia).
  rewrite !andb_true_iff, !Nat.leb_le. intros [[Hd1 Hd2] Hrest]. simpl.
  destruct (Nat.eqb_spec (depth h) cur) as [Heq|Hne].
  { rewrite (IH cur frames) by (done || by rewrite <- Heq). f_equal. lia. }
  destruct (Nat.ltb_spec cur (depth h)).
  - rewrite (IH (depth h) (S frames)) by (done || lia). f_equal. lia.
  - rewrite (IH (depth h) (frames - (cur - depth h))) by (done || lia). f_equal. lia.
Qed.

Lemma nonDecreasing_underflows maxD hs : ∀ cur frames,
  nonDecreasing cur (map depth (filter (eligible maxD) hs)) = true →
  underflows maxD cur frames (map depth hs) = false.
Proof.
  induction hs as [|h hs IH]; intros cur frames; [done|]. simpl.
  destruct (Nat.ltb_spec maxD (depth h)).
  { rewrite filter_cons_False by (unfold eligible; lia). apply IH. }
  rewrite filter_cons_True by (unfold eligible; lia). simpl.
  rewrite andb_true_iff, Nat.leb_le. intros [Hle Hrest].
  destruct (Nat.eqb_spec (depth h) cur) as [Heq|Hne].
  { apply IH. by rewrite <- Heq. }
  destruct (Nat.ltb_spec cur (depth h)); [by apply IH | lia].
Qed.

(** ** The outline builder: further properties *)

(** X1: in the outline of a build that succeeds, the links, read in
    document order, are the links of the headings within [maxDepth], each
    once and in the order of the headings; nothing else is linked. *)
Theorem outline_links_are_the_eligible_headings maxD ord hs t :
  buildToc maxD ord hs = Ok t → links t = map link (filter (eligible maxD) hs).
Proof.
  destruct hs as [|first rest].
  { intros [= <-]. by destruct ord. }
  unfold buildToc.
  destruct (run maxD ord (initState ord first) (first :: rest)) as [st|] eqn:Hrun; [|done].
  intros [= <-].
  destruct (spineState_run _ _ _ _ _ (spineState_init ord first) Hrun) as (_ & Hlinks & _).
  rewrite Hlinks. by destruct ord.
Qed.

Lemma outline_links_are_the_eligible_headings_witness :
  links (Element "ul" ∅ [li (mkHeading 1 "a" "A"); Element "ul" ∅ [li (mkHeading 2 "b" "B")];
                         li (mkHeading 1 "c" "C")])
  = map link (filter (eligible 3)
      [mkHeading 1 "a" "A"; mkHeading 2 "b" "B"; mkHeading 5 "x" "X"; mkHeading 1 "c" "C"]).
Proof.
  apply (outline_links_are_the_eligible_headings 3 false
           [mkHeading 1 "a" "A"; mkHeading 2 "b" "B"; mkHeading 5 "x" "X";
            mkHeading 1 "c" "C"]).
  vm_compute. reflexivity.
Defined.

(** X2: when no heading within [maxDepth] is shallower than the first
    heading and every deeper heading is one level deeper, the build succeeds
    and each item lies [depth - depth of the first heading + 1] lists deep. *)
Theorem stepwise_headings_nest_by_depth maxD ord first rest :
  stepwise maxD (depth first) (depth first) (map depth (first :: rest)) = true →
  ∃ t, buildToc maxD ord (first :: rest) = Ok t ∧
       flattenDepths 0 t
       = map (λ h, S (depth h - depth first)) (filter (eligible maxD) (first :: rest)).
Proof.
  intros Hsw. unfold buildToc.
  destruct (run maxD ord (initState ord first) (first :: rest)) as [st|] eqn:Hrun.
  - exists (toc st). split; [done|].
    destruct (spineState_run _ _ _ _ _ (spineState_init ord first) Hrun) as (_ & _ & Hflat).
    rewrite Hflat. replace (flattenDepths 0 (toc (initState ord first))) with (@nil nat)
      by (by destruct ord).
    apply (nestingLevels_stepwise maxD (depth first) (first :: rest) (depth first) 1);
      [done | | done].
    by rewrite Nat.sub_diag.
  - pose proof (run_underflows maxD ord (first :: rest) (initState ord first)) as Hu.
    rewrite Hrun in Hu. simpl currentDepth in Hu. simpl parents in Hu. simpl length in Hu.
    rewrite (stepwise_underflows maxD (depth first)) in Hu; [done | done | | done].
    by rewrite Nat.sub_diag.
Qed.

Lemma stepwise_headings_nest_by_depth_witness :
  ∃ t, buildToc 3 true [mkHeading 2 "a" "A"; mkHeading 3 "b" "B"; mkHeading 6 "x" "X";
                        mkHeading 3 "c" "C"; mkHeading 2 "d" "D"] = Ok t ∧
       flattenDepths 0 t
       = map (λ h, S (depth h - 2))
           (filter (eligible 3)
              [mkHeading 2 "a" "A"; mkHeading 3 "b" "B"; mkHeading 6 "x" "X";
               mkHeading 3 "c" "C"; mkHeading 2 "d" "D"]).
Proof.
  apply (stepwise_headings_nest_by_depth 3 true (mkHeading 2 "a" "A")
           [mkHeading 3 "b" "B"; mkHeading 6 "x" "X"; mkHeading 3 "c" "C";
            mkHeading 2 "d" "D"]).
  vm_compute. reflexivity.
Defined.

(** X3: the outline holds elements of three kinds only: lists of the kind
    that [ordered] selects ([ol] or [ul], the same for the root and every
    nested list), items and links. *)
Theorem outline_uses_one_list_kind maxD ord hs t :
  buildToc maxD ord hs = Ok t → usesOnly [listTag ord; "li"; "a"] t = true.
Proof.
  assert (usesOnly [listTag ord; "li"; "a"] (emptyToc ord) = true) as Hempty
    by (by destruct ord).
  destruct hs as [|first rest]; [by intros [= <-]|]. unfold buildToc.
  destruct (run maxD ord (initState ord first) (first :: rest)) as [st|] eqn:Hrun; [|done].
  intros [= <-].
  apply (usesOnly_run maxD ord _ (first :: rest) (initState ord first) st);
    [| | | exact Hempty | exact Hrun].
  - apply list_elem_of_here.
  - apply list_elem_of_further, list_elem_of_here.
  - do 2 apply list_elem_of_further. apply list_elem_of_here.
Qed.

Lemma outline_uses_one_list_kind_witness :
  usesOnly ["ol"; "li"; "a"]
    (Element "ol" ∅ [li (mkHeading 1 "a" "A"); Element "ol" ∅ [li (mkHeading 2 "b" "B")]])
  = true.
Proof.
  apply (outline_uses_one_list_kind 3 true [mkHeading 1 "a" "A"; mkHeading 2 "b" "B"]).
  vm_compute. reflexivity.
Defined.

(** X4: headings that are sorted by depth never make the build throw: when
    the first heading is within [maxDepth] and the depths of the headings
    within [maxDepth] never go down, the build succeeds. *)
Theorem sorted_headings_never_throw maxD ord first rest :
  eligible maxD first →
  nonDecreasing (depth first) (map depth (filter (eligible maxD) rest)) = true →
  isOk (buildToc maxD ord (first :: rest)) = true.
Proof.
  intros Hfirst Hsorted. rewrite buildToc_underflows.
  rewrite (nonDecreasing_underflows maxD (first :: rest)); [done|].
  rewrite filter_cons_True by done. simpl. by rewrite Nat.leb_refl.
Qed.

Lemma sorted_headings_never_throw_witness :
  isOk (buildToc 3 false [mkHeading 2 "a" "A"; mkHeading 2 "b" "B"; mkHeading 5 "x" "X";
                          mkHeading 3 "c" "C"]) = true.
Proof.
  apply (sorted_headings_never_throw 3 false (mkHeading 2 "a" "A")
           [mkHeading 2 "b" "B"; mkHeading 5 "x" "X"; mkHeading 3 "c" "C"]).
  - unfold eligible. simpl. lia.
  - vm_compute. reflexivity.
Defined.

(** X5: when the first heading is within [maxDepth], the headings beyond
    [maxDepth] have no effect: the build of all headings and the build of
    the headings within [maxDepth] give the same result, outline or error. *)
Theorem over_deep_headings_have_no_effect maxD ord first rest :
  eligible maxD first →
  buildToc maxD ord (first :: rest)
  = buildToc maxD ord (filter (eligible maxD) (first :: rest)).
Proof.
  intros Hfirst. rewrite filter_cons_True by done. unfold buildToc.
  rewrite <- (run_filter maxD ord (first :: rest)).
  by rewrite filter_cons_True by done.
Qed.

Lemma over_deep_headings_have_no_effect_witness :
  buildToc 2 false [mkHeading 1 "a" "A"; mkHeading 3 "x" "X"; mkHeading 2 "b" "B"]
  = buildToc 2 false
      (filter (eligible 2) [mkHeading 1 "a" "A"; mkHeading 3 "x" "X"; mkHeading 2 "b" "B"]).
Proof.
  apply (over_deep_headings_have_no_effect 2 false (mkHeading 1 "a" "A")
           [mkHeading 3 "x" "X"; mkHeading 2 "b" "B"]).
  unfold eligible. simpl. lia.
Defined.

(** X6: when the first heading is beyond [maxDepth] and some later heading
    is within it, the build throws: [currentDepth] starts at the depth of
    the first heading, and the first heading that takes part asks for a pop
    of the root. *)
Theorem over_deep_first_heading_throws maxD ord first rest :
  maxD < depth first → Exists (eligible maxD) rest →
  buildToc maxD ord (first :: rest) = ParentNodeNotFound.
Proof.
  intros Hfirst Hex.
  pose proof (buildToc_underflows maxD ord first rest) as Hb.
  rewrite underflows_first_over_deep in Hb.
  - by destruct (buildToc maxD ord (first :: rest)).
  - done.
  - simpl. apply Exists_cons. right. apply Exists_fmap.
    eapply Exists_impl; [exact Hex|]. unfold eligible. simpl. lia.
Qed.

Lemma over_deep_first_heading_throws_witness :
  buildToc 3 false [mkHeading 5 "x" "X"; mkHeading 6 "y" "Y"; mkHeading 2 "a" "A"]
  = ParentNodeNotFound.
Proof.
  apply (over_deep_first_heading_throws 3 false (mkHeading 5 "x" "X")
           [mkHeading 6 "y" "Y"; mkHeading 2 "a" "A"]).
  - simpl. lia.
  - apply Exists_cons_tl, Exists_cons_hd. unfold eligible. simpl. lia.
Defined.

(** ** Heading collection: further properties *)

Lemma headingDepth_bounds tag d : headingDepth tag = Some d → 1 ≤ d ≤ 6.
Proof.
  unfold headingDepth. intros Hd. apply elem_of_list_to_map_2 in Hd.
  unfold headingTags in Hd.
  repeat (apply elem_of_cons in Hd as [[= _ ->]|Hd]; [lia|]).
  by apply elem_of_nil in Hd.
Qed.

Section CollectionShape.

Variable toText : Node → string.
Variable trim : string → string.
Variable slugify : string → string.

Local Abbreviation visit := (visitNode toText trim slugify).
Local Abbreviation visitAll := (visitList (visitNode toText trim slugify)).
Local Abbreviation factsOf := (headingFacts toText trim).

Lemma visitNode_headingIds n : ∀ occ,
  headingIds (visit n occ).1.1 = map (λ h, Some (slug h)) (visit n occ).2.
Proof.
  induction n as [tag props cs IH|v|v|] using Node_nested_ind; intros occ; try done.
  assert (∀ occ0, flat_map headingIds (visitAll cs occ0).1.1
                  = map (λ h, Some (slug h)) (visitAll cs occ0).2) as Hcs.
  { induction IH as [|c cs Hc _ IHcs]; intros occ0; [done|].
    rewrite visitList_cons. specialize (Hc occ0).
    destruct (visit c occ0) as [[c' occ1] hs1]. specialize (IHcs occ1).
    destruct (visitAll cs occ1) as [[cs' occ2] hs2]. simpl in *.
    by rewrite Hc, IHcs, map_app. }
  rewrite visitNode_element. destruct (headingDepth tag) as [d|] eqn:Hd.
  - unfold visitHeading. destruct (resolveId _ _ _ _) as [slg occ1].
    specialize (Hcs occ1). destruct (visitAll cs occ1) as [[cs' occ2] hs]. simpl in *.
    by rewrite Hd, Hcs, lookup_insert_eq.
  - specialize (Hcs occ). destruct (visitAll cs occ) as [[cs' occ2] hs]. simpl in *.
    by rewrite Hd, Hcs.
Qed.

Lemma visitList_headingIds cs occ :
  flat_map headingIds (visitAll cs occ).1.1 = map (λ h, Some (slug h)) (visitAll cs occ).2.
Proof.
  revert occ. induction cs as [|c cs IH]; intros occ; [done|].
  rewrite visitList_cons. pose proof (visitNode_headingIds c occ) as Hc.
  destruct (visit c occ) as [[c' occ1] hs1]. specialize (IH occ1).
  destruct (visitAll cs occ1) as [[cs' occ2] hs2]. simpl in *. by rewrite Hc, IH, map_app.
Qed.

Lemma visitNode_headingFacts n : ∀ occ,
  map (λ h, (depth h, text h)) (visit n occ).2 = factsOf n ∧
  Forall (λ h, 1 ≤ depth h ≤ 6) (visit n occ).2.
Proof.
  induction n as [tag props cs IH|v|v|] using Node_nested_ind; intros occ; try done.
  assert (∀ occ0, map (λ h, (depth h, text h)) (visitAll cs occ0).2 = flat_map factsOf cs ∧
                  Forall (λ h, 1 ≤ depth h ≤ 6) (visitAll cs occ0).2) as Hcs.
  { induction IH as [|c cs Hc _ IHcs]; intros occ0; [done|].
    rewrite visitList_cons. specialize (Hc occ0).
    destruct (visit c occ0) as [[c' occ1] hs1]. specialize (IHcs occ1).
    destruct (visitAll cs occ1) as [[cs' occ2] hs2]. simpl in *.
    destruct Hc as [Hc1 Hc2], IHcs as [IH1 IH2].
    rewrite map_app, Hc1, IH1. split; [done|]. by apply Forall_app. }
  rewrite visitNode_element. simpl. destruct (headingDepth tag) as [d|] eqn:Hd.
  - unfold visitHeading. destruct (resolveId _ _ _ _) as [slg occ1].
    destruct (Hcs occ1) as [Hf Hb]. destruct (visitAll cs occ1) as [[cs' occ2] hs].
    simpl in *. rewrite Hf. split; [done|]. constructor; [|done]. simpl.
    by eapply headingDepth_bounds.
  - destruct (Hcs occ) as [Hf Hb]. by destruct (visitAll cs occ) as [[cs' occ2] hs].
Qed.

Lemma visitList_headingFacts cs occ :
  map (λ h, (depth h, text h)) (visitAll cs occ).2 = flat_map factsOf cs ∧
  Forall (λ h, 1 ≤ depth h ≤ 6) (visitAll cs occ).2.
Proof.
  revert occ. induction cs as [|c cs IH]; intros occ; [done|].
  rewrite visitList_cons. destruct (visitNode_headingFacts c occ) as [Hc1 Hc2].
  destruct (visit c occ) as [[c' occ1] hs1]. destruct (IH occ1) as [IH1 IH2].
  destruct (visitAll cs occ1) as [[cs' occ2] hs2]. simpl in *.
  rewrite map_app, Hc1, IH1. split; [done|]. by apply Forall_app.
Qed.

End CollectionShape.

(** X7: the collection returns one record for every heading element, in
    document order, with the depth of its tag, a number from 1 to 6, and the
    trimmed text that the element has when the walk reaches it. *)
Theorem collected_headings_in_document_order toText trim slugify tree :
  map (λ h, (depth h, text h)) (collectHeadings toText trim slugify tree).2
  = flat_map (headingFacts toText trim) (rootChildren tree) ∧
  Forall (λ h, 1 ≤ depth h ≤ 6) (collectHeadings toText trim slugify tree).2.
Proof.
  unfold collectHeadings.
  pose proof (visitList_headingFacts toText trim slugify (rootChildren tree) ∅) as Hfacts.
  by destruct (visitList _ _ _) as [[cs occ] hs].
Qed.

(** X8: after the collection the [id] properties of the heading elements
    of the tree, in document order, are the identifiers of the collected
    records. *)
Theorem heading_ids_are_the_collected_slugs toText trim slugify tree :
  flat_map headingIds (rootChildren (collectHeadings toText trim slugify tree).1)
  = map (λ h, Some (slug h)) (collectHeadings toText trim slugify tree).2.
Proof.
  unfold collectHeadings.
  pose proof (visitList_headingIds toText trim slugify (rootChildren tree) ∅) as Hids.
  by destruct (visitList _ _ _) as [[cs occ] hs].
Qed.

(** X9: every link of the outline points to a heading element of the
    document: for some [k], the link is the link of the [k]-th collected
    record, the [k]-th heading element in document order carries, after the
    collection, the [id] that the [href] names behind [#], and the text of
    the link is the trimmed text of that same [k]-th heading element. *)
Theorem outline_links_point_to_heading_ids toText trim slugify tree options t :
  let tree' := (collectHeadings toText trim slugify tree).1 in
  let headings := (collectHeadings toText trim slugify tree).2 in
  buildToc (maxDepth options) (ordered options) headings = Ok t →
  Forall (λ l, ∃ k h,
            headings !! k = Some h ∧
            l = Element "a" {["href" := "#" +:+ slug h]} [Text (text h)] ∧
            flat_map headingIds (rootChildren tree') !! k = Some (Some (slug h)) ∧
            flat_map (headingFacts toText trim) (rootChildren tree) !! k
            = Some (depth h, text h))
         (links t).
Proof.
  intros tree' headings Hbuild.
  assert (links t = map link (filter (eligible (maxDepth options)) headings)) as ->.
  { destruct headings as [|first rest].
    { injection Hbuild as <-. by destruct (ordered options). }
    unfold buildToc in Hbuild.
    destruct (run _ _ (initState _ first) (first :: rest)) as [st|] eqn:Hrun; [|done].
    injection Hbuild as <-.
    destruct (spineState_run _ _ _ _ _ (spineState_init (ordered options) first) Hrun)
      as (_ & Hlinks & _).
    rewrite Hlinks. by destruct (ordered options). }
  apply Forall_forall. intros l Hl. apply list_elem_of_fmap in Hl as (h & -> & Hh).
  apply list_elem_of_filter in Hh as [_ Hh].
  apply list_elem_of_lookup in Hh as [k Hk]. exists k, h.
  split; [done|]. split; [done|].
  unfold tree', headings, collectHeadings in *.
  pose proof (visitList_headingIds toText trim slugify (rootChildren tree) ∅) as Hids.
  pose proof (visitList_headingFacts toText trim slugify (rootChildren tree) ∅) as [Hfacts _].
  destruct (visitList _ _ _) as [[cs occ] hs]. simpl in *.
  rewrite Hids, <- Hfacts, !list_lookup_fmap, Hk. done.
Qed.

Lemma outline_links_point_to_heading_ids_witness :
  Forall (λ l, ∃ k h,
            (collectHeadingsSample
               (mkRoot [Element "h1" ∅ [Text "One"];
                        Element "h2" {["id" := "two"]} [Text "Second"]])).2 !! k = Some h ∧
            l = Element "a" {["href" := "#" +:+ slug h]} [Text (text h)] ∧
            flat_map headingIds
              (rootChildren (collectHeadingsSample
                 (mkRoot [Element "h1" ∅ [Text "One"];
                          Element "h2" {["id" := "two"]} [Text "Second"]])).1) !! k
            = Some (Some (slug h)) ∧
            flat_map (headingFacts toTextSample trimSample)
              (rootChildren (mkRoot [Element "h1" ∅ [Text "One"];
                                     Element "h2" {["id" := "two"]} [Text "Second"]])) !! k
            = Some (depth h, text h))
    (links (Element "ul" ∅ [li (mkHeading 1 "one" "One");
                            Element "ul" ∅ [li (mkHeading 2 "two" "Second")]])).
Proof.
  apply (outline_links_point_to_heading_ids toTextSample trimSample slugifyAscii
           (mkRoot [Element "h1" ∅ [Text "One"];
                    Element "h2" {["id" := "two"]} [Text "Second"]])
           defaultOptionsSample).
  vm_compute. reflexivity.
Defined.

(** ** Placement: further properties *)

Section PlacementShape.

Variable toText : Node → string.
Variable trim : string → string.
Variable slugify : string → string.
Variable toLowerCase : string → string.
Variable toHtml : Node → string.
Variable fromHtml : string → list Node.

Local Abbreviation collect := (collectHeadings toText trim slugify).
Local Abbreviation generate := (generateToc toText trim slugify toHtml fromHtml).
Local Abbreviation transform :=
  (transformer toText trim slugify toLowerCase toHtml fromHtml).
Local Abbreviation marker := (isMarker trim toLowerCase).
Local Abbreviation marked := (hasMarker trim toLowerCase).
Local Abbreviation walks := (walksTo trim toLowerCase).
Local Abbreviation replaced := (replaceMarkers trim toLowerCase).

Lemma replaceMarkers_clean tocNodes n : marked n = false → replaced tocNodes n = [n].
Proof.
  induction n as [tag props cs IH|v|v|] using Node_nested_ind; try done.
  - simpl. intros Hclean.
    assert (isMarkerParagraph trim toLowerCase tag cs = false) as ->.
    { unfold isMarkerParagraph. apply andb_false_iff. right.
      destruct cs as [|[| |v|] [|]]; try done. simpl in Hclean.
      by apply orb_false_iff in Hclean as [? _]. }
    do 2 f_equal. induction IH as [|c cs Hc _ IHcs]; [done|]. simpl in *.
    apply orb_false_iff in Hclean as [Hc1 Hc2]. by rewrite (Hc Hc1), (IHcs Hc2).
  - simpl. by intros ->.
Qed.

Lemma flat_map_replaceMarkers_clean tocNodes cs :
  existsb marked cs = false → flat_map (replaced tocNodes) cs = cs.
Proof.
  induction cs as [|c cs IH]; [done|]. simpl. intros [Hc Hcs]%orb_false_iff.
  by rewrite (replaceMarkers_clean _ _ Hc), (IH Hcs).
Qed.

Lemma markerAt_not_paragraph tag p es :
  markerAt trim toLowerCase (bool_decide (tag = "p")) p es = true →
  isMarkerParagraph trim toLowerCase tag es = false.
Proof.
  destruct p as [|j p]; [done|]. simpl. unfold isMarkerParagraph.
  rewrite !andb_true_iff. intros [_ Hat].
  destruct (bool_decide (tag = "p")); [|done]. simpl in *.
  destruct es as [|[| |v|] [|]]; try done.
  destruct p as [|? ?], j as [|j]; simpl in Hat; try done.
  apply andb_true_iff in Hat as [_ Hat]. done.
Qed.

Lemma markerParagraphAt_not_paragraph tag p es :
  markerParagraphAt trim toLowerCase p es = true →
  isMarkerParagraph trim toLowerCase tag es = false.
Proof.
  destruct p as [|j p]; [done|]. simpl. unfold isMarkerParagraph.
  rewrite !andb_true_iff. intros [_ Hat]. apply andb_false_iff. right.
  destruct es as [|[| |v|] [|]]; try done.
  by destruct p as [|? ?], j as [|j].
Qed.

Lemma existsb_marked_middle cs i x :
  cs !! i = Some x → marked x = true → existsb marked cs = true.
Proof.
  intros Hx Hm. rewrite <- (take_drop_middle cs i x Hx), existsb_app. simpl.
  by rewrite Hm, orb_true_r.
Qed.

Lemma flat_map_replaced_middle tocNodes cs i x :
  cs !! i = Some x →
  existsb marked (take i cs) = false → existsb marked (drop (S i) cs) = false →
  flat_map (replaced tocNodes) cs = take i cs ++ replaced tocNodes x ++ drop (S i) cs.
Proof.
  intros Hx Htake Hdrop. rewrite <- (take_drop_middle cs i x Hx) at 1.
  rewrite flat_map_app. simpl.
  by rewrite !flat_map_replaceMarkers_clean by done.
Qed.

(** When the only marker is a comment that is not alone in a [p] element,
    replacing every marker is replacing that comment where it is. *)
Lemma replaceMarkers_markerAt tocNodes p : ∀ inP cs,
  markerAt trim toLowerCase inP p cs = true →
  flat_map (replaced tocNodes) cs = replaceAt p tocNodes cs ∧ existsb marked cs = true.
Proof.
  induction p as [|i p IH]; intros inP cs; [done|]. simpl.
  rewrite !andb_true_iff, !negb_true_iff. intros [[Htake Hdrop] Hat].
  destruct (cs !! i) as [x|] eqn:Hx; [|by destruct p].
  rewrite (flat_map_replaced_middle _ _ _ _ Hx Htake Hdrop).
  destruct p as [|j p].
  - destruct x as [| |v|]; try done. apply andb_true_iff in Hat as [Hv _].
    simpl. rewrite Hv. split; [done|]. by apply (existsb_marked_middle _ _ _ Hx).
  - destruct x as [tag props es| | |]; try done.
    destruct (IH _ _ Hat) as [Hes Hmarked]. simpl replaceMarkers.
    rewrite (markerAt_not_paragraph _ _ _ Hat). fold (replaced tocNodes). rewrite Hes.
    split; [|by apply (existsb_marked_middle _ _ _ Hx)].
    rewrite insert_take_drop by (by eapply lookup_lt_Some). done.
Qed.

(** When the only marker is alone in a [p] element, replacing every marker
    is replacing that element where it is. *)
Lemma replaceMarkers_markerParagraphAt tocNodes p : ∀ cs,
  markerParagraphAt trim toLowerCase p cs = true →
  flat_map (replaced tocNodes) cs = replaceAt p tocNodes cs ∧ existsb marked cs = true.
Proof.
  induction p as [|i p IH]; intros cs; [done|]. simpl.
  rewrite !andb_true_iff, !negb_true_iff. intros [[Htake Hdrop] Hat].
  destruct (cs !! i) as [x|] eqn:Hx; [|by destruct p].
  rewrite (flat_map_replaced_middle _ _ _ _ Hx Htake Hdrop).
  destruct p as [|j p].
  - destruct x as [tag props es| | |]; try done. simpl. rewrite Hat.
    split; [done|]. apply (existsb_marked_middle _ _ _ Hx). simpl.
    unfold isMarkerParagraph in Hat. apply andb_true_iff in Hat as [_ Hat].
    destruct es as [|[| |v|] [|]]; try done. simpl. by rewrite Hat.
  - destruct x as [tag props es| | |]; try done.
    destruct (IH _ Hat) as [Hes Hmarked]. simpl replaceMarkers.
    rewrite (markerParagraphAt_not_paragraph tag _ _ Hat). fold (replaced tocNodes).
    rewrite Hes. split; [|by apply (existsb_marked_middle _ _ _ Hx)].
    rewrite insert_take_drop by (by eapply lookup_lt_Some). done.
Qed.

(** With no node to insert, the walk goes on behind the node that follows a
    removed marker comment. *)
Lemma walks_skips_after_removed_marker pre v x post :
  marker v = true → existsb marked pre = false → existsb marked post = false →
  walks [] false false (pre ++ [Comment v; x] ++ post) 0 (pre ++ [x] ++ post, true, false).
Proof.
  intros Hv Hpre Hpost.
  apply (walks_clean trim toLowerCase [] pre [] _ false false _ Hpre). simpl.
  eapply (walks_marker trim toLowerCase []).
  - rewrite lookup_app_r, Nat.sub_diag by lia. done.
  - done.
  - done.
  - rewrite splice_middle. simpl.
    replace (pre ++ x :: post) with ((pre ++ [x]) ++ post ++ [])
      by (by rewrite app_nil_r, <- app_assoc).
    replace (S (length pre)) with (length (pre ++ [x]))
      by (rewrite length_app; simpl; lia).
    apply walks_clean; [done|]. apply walks_end. apply lookup_ge_None_2.
    rewrite !length_app. simpl. lia.
Qed.

End PlacementShape.

(** X10: when the build throws, the transformer throws before any
    placement: the tree differs from the one it was given only in the [id]
    of heading elements. *)
Theorem transformer_throws_before_placement toText trim slugify toLowerCase toHtml fromHtml
    tree options fuel :
  (generateToc toText trim slugify toHtml fromHtml tree options).2 = ParentNodeNotFound →
  ∃ tree', transformer toText trim slugify toLowerCase toHtml fromHtml fuel options tree = Some (tree', ParentNodeNotFound) ∧
           map stripHeadingIds (rootChildren tree') = map stripHeadingIds (rootChildren tree).
Proof.
  intros Hgen. exists (collectHeadings toText trim slugify tree).1. split.
  - unfold transformer. pose proof (generateToc_tree toText trim slugify toHtml fromHtml
                                      tree options) as Htree.
    destruct (generateToc toText trim slugify toHtml fromHtml tree options) as [tree1 r]. simpl in *. by subst r tree1.
  - unfold collectHeadings.
    pose proof (visitList_frame toText trim slugify (rootChildren tree) ∅) as Hframe.
    by destruct (visitList _ _ _) as [[cs occ] hs].
Qed.

(** X11: a marker comment that is not the only child of a [p] element,
    directly under the root or under any element at any depth, is replaced
    where it is: the outline nodes take its place among the children of its
    parent and everything else stays (outline nodes that are not empty and
    hold no marker, no other marker in the document). *)
Theorem marker_among_siblings_replaced_in_place toText trim slugify toLowerCase toHtml fromHtml
    tree options tocNodes p :
  (generateToc toText trim slugify toHtml fromHtml tree options).2 = Ok tocNodes →
  tocNodes ≠ [] → existsb (hasMarker trim toLowerCase) tocNodes = false →
  markerAt trim toLowerCase false p
    (rootChildren (collectHeadings toText trim slugify tree).1) = true →
  ∃ fuel0, ∀ fuel, fuel0 ≤ fuel →
    transformer toText trim slugify toLowerCase toHtml fromHtml fuel options tree
    = Some (mkRoot (replaceAt p tocNodes
                      (rootChildren (collectHeadings toText trim slugify tree).1)), Ok tt).
Proof.
  intros Hgen Hne Htoc Hat.
  destruct (replaceMarkers_markerAt trim toLowerCase tocNodes p _ _ Hat) as [Hrep Hmarked].
  pose proof (walks_replaced trim toLowerCase tocNodes Hne Htoc
                (rootChildren (collectHeadings toText trim slugify tree).1)) as Hw.
  rewrite Hrep, Hmarked in Hw.
  apply (transformer_walks _ _ _ _ _ _ _ _ _ _ _ _ Hgen Hw).
Qed.

(** X12: a [p] element whose only child is the marker comment, directly
    under the root or under any element at any depth, is replaced as a whole
    by the outline nodes, which take its place among the children of its
    parent (outline nodes that are not empty and hold no marker, no other
    marker in the document). *)
Theorem marker_paragraph_replaced_entirely toText trim slugify toLowerCase toHtml fromHtml
    tree options tocNodes p :
  (generateToc toText trim slugify toHtml fromHtml tree options).2 = Ok tocNodes →
  tocNodes ≠ [] → existsb (hasMarker trim toLowerCase) tocNodes = false →
  markerParagraphAt trim toLowerCase p
    (rootChildren (collectHeadings toText trim slugify tree).1) = true →
  ∃ fuel0, ∀ fuel, fuel0 ≤ fuel →
    transformer toText trim slugify toLowerCase toHtml fromHtml fuel options tree
    = Some (mkRoot (replaceAt p tocNodes
                      (rootChildren (collectHeadings toText trim slugify tree).1)), Ok tt).
Proof.
  intros Hgen Hne Htoc Hat.
  destruct (replaceMarkers_markerParagraphAt trim toLowerCase tocNodes p _ Hat)
    as [Hrep Hmarked].
  pose proof (walks_replaced trim toLowerCase tocNodes Hne Htoc
                (rootChildren (collectHeadings toText trim slugify tree).1)) as Hw.
  rewrite Hrep, Hmarked in Hw.
  apply (transformer_walks _ _ _ _ _ _ _ _ _ _ _ _ Hgen Hw).
Qed.

(** X13: when there is no node to insert, the node that directly follows a
    removed marker comment is not visited: it stays in the document as it
    is, also when it is a marker itself (no marker before, none further
    behind). *)
Theorem node_after_removed_marker_is_skipped toText trim slugify toLowerCase toHtml fromHtml
    tree options pre v x post :
  (generateToc toText trim slugify toHtml fromHtml tree options).2 = Ok [] →
  rootChildren (collectHeadings toText trim slugify tree).1 = pre ++ [Comment v; x] ++ post →
  isMarker trim toLowerCase v = true →
  existsb (hasMarker trim toLowerCase) pre = false → existsb (hasMarker trim toLowerCase) post = false →
  ∃ fuel0, ∀ fuel, fuel0 ≤ fuel →
    transformer toText trim slugify toLowerCase toHtml fromHtml fuel options tree = Some (mkRoot (pre ++ [x] ++ post), Ok tt).
Proof.
  intros Hgen Hshape Hv Hpre Hpost.
  apply (transformer_walks toText trim slugify toLowerCase toHtml fromHtml
           tree options [] (pre ++ [x] ++ post) true false Hgen).
  rewrite Hshape. by apply walks_skips_after_removed_marker.
Qed.

Lemma transformer_throws_before_placement_witness :
  ∃ tree',
    transformerSample 0 defaultOptionsSample
      (mkRoot [Comment "toc"; Element "h2" ∅ [Text "X"]; Element "h1" ∅ [Text "Y"]])
    = Some (tree', ParentNodeNotFound) ∧
    map stripHeadingIds (rootChildren tree')
    = map stripHeadingIds [Comment "toc"; Element "h2" ∅ [Text "X"]; Element "h1" ∅ [Text "Y"]].
Proof.
  apply (transformer_throws_before_placement toTextSample trimSample slugifyAscii lowerAscii
           toHtmlSample fromHtmlSample
           (mkRoot [Comment "toc"; Element "h2" ∅ [Text "X"]; Element "h1" ∅ [Text "Y"]])
           defaultOptionsSample 0).
  vm_compute. reflexivity.
Defined.

Lemma marker_among_siblings_replaced_in_place_witness :
  let tocNodes := fromHtmlSample (defaultTemplate trimSample
                    (toHtmlSample (Element "ul" ∅ [li (mkHeading 1 "a" "A")]))) in
  (∃ fuel0, ∀ fuel, fuel0 ≤ fuel →
     transformerSample fuel defaultOptionsSample
       (mkRoot [Element "h1" ∅ [Text "A"]; Comment "toc"; Text "end"])
     = Some (mkRoot (replaceAt [1] tocNodes
               [Element "h1" {["id" := "a"]} [Text "A"]; Comment "toc"; Text "end"]),
             Ok tt)) ∧
  (∃ fuel0, ∀ fuel, fuel0 ≤ fuel →
     transformerSample fuel defaultOptionsSample
       (mkRoot [Element "h1" ∅ [Text "A"];
                Element "div" ∅ [Element "p" ∅ [Text "see "; Comment "toc"]]])
     = Some (mkRoot (replaceAt [1; 0; 1] tocNodes
               [Element "h1" {["id" := "a"]} [Text "A"];
                Element "div" ∅ [Element "p" ∅ [Text "see "; Comment "toc"]]]),
             Ok tt)).
Proof.
  cbv zeta. split.
  - assert (rootChildren (collectHeadingsSample
        (mkRoot [Element "h1" ∅ [Text "A"]; Comment "toc"; Text "end"])).1
      = [Element "h1" {["id" := "a"]} [Text "A"]; Comment "toc"; Text "end"]) as <-
      by (vm_compute; reflexivity).
    apply (marker_among_siblings_replaced_in_place toTextSample trimSample slugifyAscii
             lowerAscii toHtmlSample fromHtmlSample
             (mkRoot [Element "h1" ∅ [Text "A"]; Comment "toc"; Text "end"])
             defaultOptionsSample
             (fromHtmlSample (defaultTemplate trimSample
                (toHtmlSample (Element "ul" ∅ [li (mkHeading 1 "a" "A")]))))
             [1]).
    + vm_compute. reflexivity.
    + vm_compute. discriminate.
    + vm_compute. reflexivity.
    + vm_compute. reflexivity.
  - assert (rootChildren (collectHeadingsSample
        (mkRoot [Element "h1" ∅ [Text "A"];
                Element "div" ∅ [Element "p" ∅ [Text "see "; Comment "toc"]]])).1
      = [Element "h1" {["id" := "a"]} [Text "A"];
         Element "div" ∅ [Element "p" ∅ [Text "see "; Comment "toc"]]]) as <-
      by (vm_compute; reflexivity).
    apply (marker_among_siblings_replaced_in_place toTextSample trimSample slugifyAscii
             lowerAscii toHtmlSample fromHtmlSample
             (mkRoot [Element "h1" ∅ [Text "A"];
                      Element "div" ∅ [Element "p" ∅ [Text "see "; Comment "toc"]]])
             defaultOptionsSample
             (fromHtmlSample (defaultTemplate trimSample
                (toHtmlSample (Element "ul" ∅ [li (mkHeading 1 "a" "A")]))))
             [1; 0; 1]).
    + vm_compute. reflexivity.
    + vm_compute. discriminate.
    + vm_compute. reflexivity.
    + vm_compute. reflexivity.
Defined.

Lemma marker_paragraph_replaced_entirely_witness :
  let tocNodes := fromHtmlSample (defaultTemplate trimSample
                    (toHtmlSample (Element "ul" ∅ [li (mkHeading 1 "a" "A")]))) in
  (∃ fuel0, ∀ fuel, fuel0 ≤ fuel →
     transformerSample fuel defaultOptionsSample
       (mkRoot [Element "p" ∅ [Comment " TOC "]; Element "h1" ∅ [Text "A"]])
     = Some (mkRoot (replaceAt [0] tocNodes
               [Element "p" ∅ [Comment " TOC "]; Element "h1" {["id" := "a"]} [Text "A"]]),
             Ok tt)) ∧
  (∃ fuel0, ∀ fuel, fuel0 ≤ fuel →
     transformerSample fuel defaultOptionsSample
       (mkRoot [Element "div" ∅ [Text "x"; Element "p" ∅ [Comment "toc"]];
                Element "h1" ∅ [Text "A"]])
     = Some (mkRoot (replaceAt [0; 1] tocNodes
               [Element "div" ∅ [Text "x"; Element "p" ∅ [Comment "toc"]];
                Element "h1" {["id" := "a"]} [Text "A"]]),
             Ok tt)).
Proof.
  cbv zeta. split.
  - assert (rootChildren (collectHeadingsSample
        (mkRoot [Element "p" ∅ [Comment " TOC "]; Element "h1" ∅ [Text "A"]])).1
      = [Element "p" ∅ [Comment " TOC "]; Element "h1" {["id" := "a"]} [Text "A"]]) as <-
      by (vm_compute; reflexivity).
    apply (marker_paragraph_replaced_entirely toTextSample trimSample slugifyAscii
             lowerAscii toHtmlSample fromHtmlSample
             (mkRoot [Element "p" ∅ [Comment " TOC "]; Element "h1" ∅ [Text "A"]])
             defaultOptionsSample
             (fromHtmlSample (defaultTemplate trimSample
                (toHtmlSample (Element "ul" ∅ [li (mkHeading 1 "a" "A")]))))
             [0]).
    + vm_compute. reflexivity.
    + vm_compute. discriminate.
    + vm_compute. reflexivity.
    + vm_compute. reflexivity.
  - assert (rootChildren (collectHeadingsSample
        (mkRoot [Element "div" ∅ [Text "x"; Element "p" ∅ [Comment "toc"]];
                Element "h1" ∅ [Text "A"]])).1
      = [Element "div" ∅ [Text "x"; Element "p" ∅ [Comment "toc"]];
         Element "h1" {["id" := "a"]} [Text "A"]]) as <-
      by (vm_compute; reflexivity).
    apply (marker_paragraph_replaced_entirely toTextSample trimSample slugifyAscii
             lowerAscii toHtmlSample fromHtmlSample
             (mkRoot [Element "div" ∅ [Text "x"; Element "p" ∅ [Comment "toc"]];
                      Element "h1" ∅ [Text "A"]])
             defaultOptionsSample
             (fromHtmlSample (defaultTemplate trimSample
                (toHtmlSample (Element "ul" ∅ [li (mkHeading 1 "a" "A")]))))
             [0; 1]).
    + vm_compute. reflexivity.
    + vm_compute. discriminate.
    + vm_compute. reflexivity.
    + vm_compute. reflexivity.
Defined.

Lemma node_after_removed_marker_is_skipped_witness :
  ∃ fuel0, ∀ fuel, fuel0 ≤ fuel →
    transformerSample fuel defaultOptionsSample
      (mkRoot [Text "intro"; Comment "toc"; Comment "toc"; Text "x"])
    = Some (mkRoot ([Text "intro"] ++ [Comment "toc"] ++ [Text "x"]), Ok tt).
Proof.
  apply (node_after_removed_marker_is_skipped toTextSample trimSample slugifyAscii
           lowerAscii toHtmlSample fromHtmlSample
           (mkRoot [Text "intro"; Comment "toc"; Comment "toc"; Text "x"])
           defaultOptionsSample [Text "intro"] "toc" (Comment "toc") [Text "x"]).
  - vm_compute. reflexivity.
  - vm_compute. reflexivity.
  - vm_compute. reflexivity.
  - vm_compute. reflexivity.
  - vm_compute. reflexivity.
Defined.

(** X14: the stack of the loop keeps its shape: in every state that the
    loop reaches, [parents] is not empty, [currentParent] is its last entry,
    and the entry at height [k] is the open list [k] levels below the root,
    reached from the root through last children that are lists. *)
Theorem parents_stack_keeps_its_shape maxD ord first hs st :
  run maxD ord (initState ord first) hs = Ok st →
  parents st ≠ [] ∧
  last (parents st) = Some (currentParent st) ∧
  ∀ k q, parents st !! k = Some q → length q = k ∧ spine ord q (toc st).
Proof.
  intros Hrun.
  destruct (spineState_run _ _ _ _ _ (spineState_init ord first) Hrun) as ([Hlast Hall] & _).
  split; [|done]. intros Hnil. by rewrite Hnil in Hlast.
Qed.

Lemma parents_stack_keeps_its_shape_witness :
  ∃ st,
    run 3 false (initState false (mkHeading 1 "a" "A"))
      [mkHeading 1 "a" "A"; mkHeading 3 "b" "B"; mkHeading 2 "c" "C"; mkHeading 3 "d" "D"]
    = Ok st ∧
    parents st ≠ [] ∧
    last (parents st) = Some (currentParent st) ∧
    ∀ k q, parents st !! k = Some q → length q = k ∧ spine false q (toc st).
Proof.
  eexists. split; [vm_compute; reflexivity|].
  apply (parents_stack_keeps_its_shape 3 false (mkHeading 1 "a" "A")
           [mkHeading 1 "a" "A"; mkHeading 3 "b" "B"; mkHeading 2 "c" "C";
            mkHeading 3 "d" "D"]).
  vm_compute. reflexivity.
Defined.
